(** * mep_meetings.scraper.scraper: a shallow embedding and its properties

    The development follows [src/mep_meetings/scraper/scraper.py]:

    - [PyStr]: Python [str] values and the string operations the module
      calls ([strip], [replace], [str(int)], [int(str)], the two regular
      expressions, [urllib.parse.urlencode]);
    - [Py]: the values of a record, exceptions, and methods as functions
      of [self] that leave a trace (log records, GETs, sleeps);
    - [Soup]: the BeautifulSoup calls of [parse_article] as an interface,
      and a tree of tags that implements it;
    - [Http] and [Tenacity]: the replies of the transport and the retry
      loop of the decorator;
    - [Base] and [Europarl]: [BaseFetcher] and [EuroparlMeetingFetcher];
    - [EventLoop]: the tasks that [fetch_all_articles] hands to [gather],
      as a transition system;
    - [Example]: the inputs of the examples.

    The statements follow the definitions. *)

From Stdlib Require Import String Ascii List ZArith Lia Bool Arith.
From Stdlib Require Import Permutation Sorted DecimalString DecimalZ DecimalFacts.
Import ListNotations.

Local Open Scope list_scope.

(* ===================================================================== *)
(** * Python strings *)
(* ===================================================================== *)

Module PyStr.

(** A Python [str] is a sequence of code points; the model keeps the code
    points below 256 (one [ascii] each). *)
Definition str := list ascii.

Definition lit (s : string) : str := list_ascii_of_string s.

Fixpoint str_eqb (a b : str) : bool :=
  match a, b with
  | [], [] => true
  | x :: a', y :: b' => Ascii.eqb x y && str_eqb a' b'
  | _, _ => false
  end.

Definition code (c : ascii) : nat := nat_of_ascii c.

(** [\d] on [str] patterns matches the decimal digits of Unicode; below
    256 these are ['0'] .. ['9']. *)
Definition is_digit (c : ascii) : bool :=
  (48 <=? code c) && (code c <=? 57).

(** [str.isspace] below 256: TAB..CR, FS..US, SPACE, NEL and NBSP. *)
Definition is_space (c : ascii) : bool :=
  let n := code c in
  ((9 <=? n) && (n <=? 13)) || ((28 <=? n) && (n <=? 32))
  || (n =? 133) || (n =? 160).

Definition is_alpha (c : ascii) : bool :=
  let n := code c in
  ((65 <=? n) && (n <=? 90)) || ((97 <=? n) && (n <=? 122)).

(** ** [str.strip] and [str.replace] *)

Fixpoint lstrip (s : str) : str :=
  match s with
  | c :: t => if is_space c then lstrip t else s
  | [] => []
  end.

Definition rstrip (s : str) : str := rev (lstrip (rev s)).

Definition strip (s : str) : str := rstrip (lstrip s).

(** [s.replace("\n", new)]: the pattern is one character long. *)
Definition newline : ascii := ascii_of_nat 10.

Fixpoint replace_newline (new : str) (s : str) : str :=
  match s with
  | [] => []
  | c :: t =>
      if Ascii.eqb c newline then new ++ replace_newline new t
      else c :: replace_newline new t
  end.

(** ** [str(int)] and [int(str)] *)

Definition str_of_int (z : Z) : str :=
  list_ascii_of_string (NilEmpty.string_of_int (Z.to_int z)).

(** [int(s)] for [s] a run of decimal digits, as captured by [(\d+)]. *)
Definition int_of_digits (s : str) : option Z :=
  option_map Z.of_uint (NilEmpty.uint_of_string (string_of_list_ascii s)).

(** ** Regular expressions

    [re.search] tries the pattern at every position from the left and
    returns the first position where it matches.  [search m s] does that
    for a matcher [m] of the pattern anchored at the head of its input. *)

Fixpoint search {A} (m : str -> option A) (s : str) : option A :=
  match m s with
  | Some a => Some a
  | None =>
      match s with
      | [] => None
      | _ :: t => search m t
      end
  end.

(** The longest run of digits at the head of [s], and what follows it. *)
Fixpoint span_digits (s : str) : str * str :=
  match s with
  | c :: t =>
      if is_digit c
      then let (ds, rest) := span_digits t in (c :: ds, rest)
      else ([], s)
  | [] => ([], [])
  end.

(** [lit_prefix p s]: [s] with the literal [p] removed from its head. *)
Fixpoint lit_prefix (p s : str) : option str :=
  match p with
  | [] => Some s
  | a :: p' =>
      match s with
      | b :: s' => if Ascii.eqb a b then lit_prefix p' s' else None
      | [] => None
      end
  end.

(** [/(\d+)/] anchored: a slash, the greedy digit run, a slash.  A shorter
    run is followed by a digit and not by a slash, so backtracking into
    [\d+] never yields a match that the longest run does not. *)
Definition match_member_id (s : str) : option str :=
  match lit_prefix (lit "/") s with
  | Some t =>
      match span_digits t with
      | ((_ :: _) as ds, rest) =>
          match lit_prefix (lit "/") rest with
          | Some _ => Some ds
          | None => None
          end
      | ([], _) => None
      end
  | None => None
  end.

(** [page=(\d+)] anchored: the literal, then the greedy digit run. *)
Definition match_page (s : str) : option str :=
  match lit_prefix (lit "page=") s with
  | Some t =>
      match span_digits t with
      | ((_ :: _) as ds, _) => Some ds
      | ([], _) => None
      end
  | None => None
  end.

(** ** [urllib.parse.quote_plus] and [urlencode] *)

Definition hex_digit (n : nat) : ascii :=
  if n <? 10 then ascii_of_nat (48 + n) else ascii_of_nat (55 + n).

Definition percent (b : nat) : str :=
  [ascii_of_nat 37; hex_digit (b / 16); hex_digit (b mod 16)].

(** The UTF-8 bytes of a code point below 256. *)
Definition utf8 (c : ascii) : list nat :=
  let n := code c in
  if n <? 128 then [n] else [192 + n / 64; 128 + n mod 64].

(** Characters [quote] never escapes: letters, digits and [_.-~]. *)
Definition always_safe (c : ascii) : bool :=
  let n := code c in
  is_alpha c || is_digit c
  || (n =? 95) || (n =? 46) || (n =? 45) || (n =? 126).

Definition quote_plus_char (c : ascii) : str :=
  if always_safe c then [c]
  else if code c =? 32 then [ascii_of_nat 43]
  else flat_map percent (utf8 c).

Definition quote_plus (s : str) : str := flat_map quote_plus_char s.

Fixpoint join (sep : str) (l : list str) : str :=
  match l with
  | [] => []
  | [x] => x
  | x :: t => x ++ sep ++ join sep t
  end.

(** [urlencode(params)] for a dict of [str] keys and values, in insertion
    order. *)
Definition urlencode (params : list (str * str)) : str :=
  join (lit "&")
       (map (fun kv => quote_plus (fst kv) ++ lit "=" ++ quote_plus (snd kv))
            params).

End PyStr.

Import PyStr.

(* ===================================================================== *)
(** * Python values, exceptions and effects *)
(* ===================================================================== *)

Module Py.

(** The values stored in a record: [None], a [str] or an [int]. *)
Inductive PyVal : Type :=
| PyNone
| PyString (s : str)
| PyInt (z : Z).

(** A [dict] with [str] keys, in insertion order. *)
Definition dict := list (str * PyVal).

(** [d[k] = v] *)
Fixpoint dict_set (d : dict) (k : str) (v : PyVal) : dict :=
  match d with
  | [] => [(k, v)]
  | (k', v') :: t =>
      if str_eqb k' k then (k', v) :: t else (k', v') :: dict_set t k v
  end.



Inductive Exception : Type :=
| ValueError (msg : str)
| AttributeError (msg : str)
| HTTPStatusError (status_code : Z)
| TransportError (msg : str)
| RetryError (last_attempt : Exception)
| OtherException (msg : str).

(** Arguments interpolated into a log message. *)
Inductive Arg : Type :=
| AStr (s : str)
| AInt (z : Z)
| AExc (e : Exception).

Inductive Level : Type := WARNING | ERROR.

(** What the code does to the outside world: a [loguru] record (the
    f-string with [{}] for each interpolated argument), a GET through the
    [httpx] client, and the sleep [tenacity] inserts between attempts. *)
Inductive Event : Type :=
| Log (level : Level) (message : str) (args : list Arg)
| HttpGet (url : str) (timeout : Z)
| Sleep (seconds : Z).

Definition is_HttpGet (ev : Event) : bool :=
  match ev with HttpGet _ _ => true | _ => false end.

Definition is_Sleep (ev : Event) : bool :=
  match ev with Sleep _ => true | _ => false end.

(** ** Methods: [self], a trace and an exception

    A method runs on [self] and leaves a trace, the object as it has
    mutated it, and either a value or a raised exception.  Mutations made
    before an exception is raised stay, as they do in Python. *)

Record Outcome (S A : Type) : Type := mkOutcome
  { events : list Event;
    self_after : S;
    value : Exception + A }.

Arguments mkOutcome {S A} _ _ _.
Arguments events {S A} _.
Arguments self_after {S A} _.
Arguments value {S A} _.

Definition M (S A : Type) : Type := S -> Outcome S A.

Definition ret {S A} (a : A) : M S A :=
  fun self => mkOutcome [] self (inr a).

Definition raise {S A} (e : Exception) : M S A :=
  fun self => mkOutcome [] self (inl e).

Definition bind {S A B} (c : M S A) (k : A -> M S B) : M S B :=
  fun self =>
    let o := c self in
    match value o with
    | inl e => mkOutcome (events o) (self_after o) (inl e)
    | inr a =>
        let o' := k a (self_after o) in
        mkOutcome (events o ++ events o') (self_after o') (value o')
    end.

(** [try: c except Exception as e: h e] *)
Definition try_except {S A} (c : M S A) (h : Exception -> M S A) : M S A :=
  fun self =>
    let o := c self in
    match value o with
    | inl e =>
        let o' := h e (self_after o) in
        mkOutcome (events o ++ events o') (self_after o') (value o')
    | inr a => o
    end.

Definition emit {S} (ev : Event) : M S unit :=
  fun self => mkOutcome [ev] self (inr tt).

Definition get_self {S} : M S S :=
  fun self => mkOutcome [] self (inr self).

Definition put_self {S} (s : S) : M S unit :=
  fun _ => mkOutcome [] s (inr tt).

(** Lift a computation that may raise but has no other effect. *)
Definition lift {S A} (r : Exception + A) : M S A :=
  fun self => mkOutcome [] self r.

End Py.

Import Py.

Declare Scope py_scope.
Delimit Scope py_scope with py.
Notation "x <- c ;; k" := (bind c (fun x => k))
  (at level 61, c at next level, right associativity) : py_scope.
Notation "c ;; k" := (bind c (fun _ => k))
  (at level 61, right associativity) : py_scope.

Local Open Scope py_scope.

(* ===================================================================== *)
(** * The BeautifulSoup interface *)
(* ===================================================================== *)

Module Soup.

(** The calls [parse_article] makes on the markup: build the soup with
    [html.parser], [select] and [select_one] with a CSS selector given as a
    string, [get_text] and [get].  Each of them may raise. *)
Class API (Node : Type) : Type :=
  { BeautifulSoup : str -> Exception + Node;
    select : Node -> str -> Exception + list Node;
    select_one : Node -> str -> Exception + option Node;
    get_text : Node -> Exception + str;
    get : Node -> str -> Exception + option str }.

(** ** A tree of tags and strings

    The document tree [bs4] builds: a tag has a name, the values of its
    [class] attribute, its other attributes and its contents. *)
#[warnings="-register-all"]
Inductive PageElement : Type :=
| NavigableString (text : str)
| Tag (name : str) (classes : list str) (attrs : list (str * str))
      (contents : list PageElement).

(** Everything below an element, in document order. *)
Fixpoint descendants (e : PageElement) : list PageElement :=
  match e with
  | NavigableString _ => []
  | Tag _ _ _ cs => flat_map (fun c => c :: descendants c) cs
  end.

(** The two selector shapes the module uses: [.class] and [tagname]. *)
Definition matches (selector : str) (e : PageElement) : bool :=
  match e with
  | NavigableString _ => false
  | Tag name classes _ _ =>
      match lit_prefix (lit ".") selector with
      | Some cls => existsb (str_eqb cls) classes
      | None => str_eqb selector name
      end
  end.

Definition tree_select (e : PageElement) (selector : str) : list PageElement :=
  filter (matches selector) (descendants e).

Definition tree_select_one (e : PageElement) (selector : str)
  : option PageElement :=
  hd_error (tree_select e selector).

Fixpoint tree_get_text (e : PageElement) : str :=
  match e with
  | NavigableString t => t
  | Tag _ _ _ cs => flat_map tree_get_text cs
  end.

Fixpoint assoc (k : str) (l : list (str * str)) : option str :=
  match l with
  | [] => None
  | (k', v) :: t => if str_eqb k' k then Some v else assoc k t
  end.

Definition tree_get (e : PageElement) (key : str) : option str :=
  match e with
  | NavigableString _ => None
  | Tag _ _ attrs _ => assoc key attrs
  end.

(** The interface over trees, for a given [html.parser]. *)
Definition tree_api (html_parser : str -> Exception + PageElement)
  : API PageElement :=
  {| BeautifulSoup := html_parser;
     select := fun e sel => inr (tree_select e sel);
     select_one := fun e sel => inr (tree_select_one e sel);
     get_text := fun e => inr (tree_get_text e);
     get := fun e key => inr (tree_get e key) |}.

End Soup.

Import Soup.

(* ===================================================================== *)
(** * The transport *)
(* ===================================================================== *)

Module Http.

(** What [await client.get(url, timeout=...)] comes back with: a response
    with a status code and a body, or an exception of the transport (a
    timeout, a refused connection, ...). *)
Inductive Reply : Type :=
| Response (status_code : Z) (text : str)
| Failure (e : Exception).

(** [response.raise_for_status()]: every status outside 2xx raises. *)
Definition is_success (status_code : Z) : bool :=
  (200 <=? status_code)%Z && (status_code <=? 299)%Z.

(** What one attempt makes of the reply: the body, or the exception. *)
Definition checked (reply : Reply) : Exception + option str :=
  match reply with
  | Failure e => inl e
  | Response status_code text =>
      if is_success status_code then inr (Some text)
      else inl (HTTPStatusError status_code)
  end.

(** The network a run talks to: the reply to the [attempt]-th GET (from 1)
    of the task at position [task] of the link list. *)
Definition Network := nat -> nat -> Reply.

End Http.

Import Http.

(* ===================================================================== *)
(** * tenacity *)
(* ===================================================================== *)

Module Tenacity.

Section Retry.
Context {Self A : Type}.

(** The retry loop: call the function; when it raises, stop if the stop
    condition holds for the attempt just made, else sleep and call again.
    [further] counts the attempts [stop_after_attempt] still allows. *)
Fixpoint retry_from (further : nat) (wait_fixed : Z)
         (fn : nat -> M Self A) (attempt_number : nat) : M Self A :=
  try_except (fn attempt_number)
    (fun e =>
       match further with
       | O => raise (RetryError e)
       | S further' =>
           emit (Sleep wait_fixed) ;;
           retry_from further' wait_fixed fn (S attempt_number)
       end).

(** [@retry(stop=stop_after_attempt(n), wait=wait_fixed(w))]: attempts
    are numbered from 1, and the loop stops after a failed attempt whose
    number is at least [n]. *)
Definition retry (stop_after_attempt : nat) (wait_fixed : Z)
           (fn : nat -> M Self A) : M Self A :=
  retry_from (stop_after_attempt - 1) wait_fixed fn 1.
End Retry.

End Tenacity.

Import Tenacity.

(* ===================================================================== *)
(** * BaseFetcher *)
(* ===================================================================== *)

Module Base.

(** [asyncio.Semaphore(value)]: its counter. *)
Record Semaphore : Type := mkSemaphore { permits : Z }.

Definition Semaphore_init (value : Z) : Exception + Semaphore :=
  if (value <? 0)%Z
  then inl (ValueError (lit "Semaphore initial value must be >= 0"))
  else inr (mkSemaphore value).

(** The attributes [BaseFetcher.__init__] sets. *)
Record BaseFetcher : Type := mkBaseFetcher
  { base_url : option str;
    article_links : list str;
    articles : list dict;
    timeout : Z;
    semaphore : Semaphore }.

Definition default_timeout : Z := 10.
Definition default_max_connections : Z := 3.

Definition BaseFetcher_init (base_url : option str) (timeout : Z)
           (max_connections : Z) : Exception + BaseFetcher :=
  match Semaphore_init max_connections with
  | inl e => inl e
  | inr sem => inr (mkBaseFetcher base_url [] [] timeout sem)
  end.

Definition set_article_links (l : list str) (b : BaseFetcher) : BaseFetcher :=
  mkBaseFetcher (base_url b) l (articles b) (timeout b) (semaphore b).

Definition set_articles (a : list dict) (b : BaseFetcher) : BaseFetcher :=
  mkBaseFetcher (base_url b) (article_links b) a (timeout b) (semaphore b).

(** A concrete fetcher: an object that carries the base attributes and
    implements the two abstract methods. *)
Class Fetcher (Self : Type) : Type :=
  { base : Self -> BaseFetcher;
    with_base : BaseFetcher -> Self -> Self;
    construct_or_retrieve_links : Z -> M Self unit;
    parse_article : str -> str -> M Self (option (list dict)) }.

(** [range(1, pages + 1)] *)
Definition page_range (pages : Z) : list Z :=
  map Z.of_nat (seq 1 (Z.to_nat pages)).

(** [sorted(res)] on pairs (position, result): positions are distinct, so
    the order is that of the positions. *)
Fixpoint insert_by_index {A} (x : nat * A) (l : list (nat * A))
  : list (nat * A) :=
  match l with
  | [] => [x]
  | y :: t => if fst x <=? fst y then x :: y :: t
              else y :: insert_by_index x t
  end.

Fixpoint sorted {A} (l : list (nat * A)) : list (nat * A) :=
  match l with
  | [] => []
  | x :: t => insert_by_index x (sorted t)
  end.

Section Methods.
Context {Self : Type} `{Fetcher Self}.

(** The body of [fetch_article], given the reply to its GET. *)
Definition fetch_article_once (reply : Reply) (article_url : str)
  : M Self (option str) :=
  try_except
    (self <- get_self ;;
     emit (HttpGet article_url (timeout (base self))) ;;
     lift (checked reply))
    (fun e =>
       emit (Log WARNING (lit "Failed to fetch {}: {}")
                 [AStr article_url; AExc e]) ;;
       emit (Log WARNING (lit "Retrying {}...") [AStr article_url]) ;;
       raise e).

(** [fetch_article] as decorated: three attempts, two seconds apart.
    [replies k] is the reply to attempt [k]. *)
Definition fetch_article (replies : nat -> Reply) (article_url : str)
  : M Self (option str) :=
  retry 3 2 (fun attempt => fetch_article_once (replies attempt) article_url).

(** The loop of [fetch_all_articles] over the pages. *)
Fixpoint retrieve_links (pages : list Z) : M Self unit :=
  match pages with
  | [] => ret tt
  | page :: rest =>
      try_except (construct_or_retrieve_links page)
        (fun e =>
           emit (Log WARNING (lit "Failed to retrieve links from page {}: {}")
                     [AInt page; AExc e]) ;;
           raise e) ;;
      retrieve_links rest
  end.

(** [tqdm_asyncio.gather] of the tasks: they are awaited as they
    complete, each result paired with the position of its task; an
    exception raised by a task propagates when that task is awaited.
    The results are then sorted by position and the positions dropped.
    [completion] lists the positions in the order the tasks complete. *)
Fixpoint await_as_completed {A} (tasks : list (M Self A))
         (completion : list nat) : M Self (list (nat * A)) :=
  match completion with
  | [] => ret []
  | i :: rest =>
      match nth_error tasks i with
      | Some task =>
          r <- task ;;
          res <- await_as_completed tasks rest ;;
          ret ((i, r) :: res)
      | None => await_as_completed tasks rest
      end
  end.

Definition gather {A} (tasks : list (M Self A)) (completion : list nat)
  : M Self (list A) :=
  res <- await_as_completed tasks completion ;;
  ret (map snd (sorted res)).

Definition enumerate {A} (l : list A) : list (nat * A) :=
  combine (seq 0 (length l)) l.

Definition fetch_all_articles (net : Network) (completion : list nat)
           (pages : Z) : M Self (list (option str)) :=
  retrieve_links (page_range pages) ;;
  self <- get_self ;;
  let tasks :=
    map (fun '(i, article_url) => fetch_article (net i) article_url)
        (enumerate (article_links (base self))) in
  gather tasks completion.

(** The first comprehension of [run_async]: parse every body that is
    not [None], in the order of [zip(responses, self.article_links)]. *)
Fixpoint parse_all (pairs : list (option str * str))
  : M Self (list (option (list dict))) :=
  match pairs with
  | [] => ret []
  | (Some article_html, article_url) :: rest =>
      parsed <- parse_article article_html article_url ;;
      others <- parse_all rest ;;
      ret (parsed :: others)
  | (None, _) :: rest => parse_all rest
  end.

(** The second comprehension: drop [None], concatenate the rest. *)
Definition flatten (sublists : list (option (list dict))) : list dict :=
  flat_map (fun sublist =>
              match sublist with Some items => items | None => [] end)
           sublists.

Definition run_async (net : Network) (completion : list nat) (pages : Z)
  : M Self unit :=
  responses <- fetch_all_articles net completion pages ;;
  self <- get_self ;;
  parsed <- parse_all (combine responses (article_links (base self))) ;;
  self <- get_self ;;
  put_self (with_base (set_articles (flatten parsed) (base self)) self).
End Methods.

End Base.

Import Base.

(* ===================================================================== *)
(** * EuroparlMeetingFetcher *)
(* ===================================================================== *)

Module Europarl.

Record EuroparlMeetingFetcher : Type := mkEuroparlMeetingFetcher
  { super : BaseFetcher;
    referer_url : str;
    member_id : str }.

Definition default_max_connections : Z := 8.

Definition loadmore_url : str :=
  lit "https://www.europarl.europa.eu/meps/en/loadmore-meetings".

(** [re.search(r"/(\d+)/", referer_url)], then [group(1)] or [ValueError]. *)
Definition extract_member_id (referer_url : str) : Exception + str :=
  match search match_member_id referer_url with
  | Some group1 => inr group1
  | None => inl (ValueError (lit "Member ID not found in the referer URL"))
  end.

(** [__init__]: the base attributes, then the referer as the first link,
    then the member id; a referer without a member id raises and no
    object is constructed. *)
Definition init (referer_url : str) (timeout max_connections : Z)
  : Exception + EuroparlMeetingFetcher :=
  match BaseFetcher_init (Some loadmore_url) timeout max_connections with
  | inl e => inl e
  | inr b =>
      let b := set_article_links [referer_url] b in
      match extract_member_id referer_url with
      | inl e => inl e
      | inr id => inr (mkEuroparlMeetingFetcher b referer_url id)
      end
  end.

(** [EuroparlMeetingFetcher(referer_url=...)] with the default arguments. *)
Definition new (referer_url : str) : Exception + EuroparlMeetingFetcher :=
  init referer_url Base.default_timeout default_max_connections.

Definition with_super (b : BaseFetcher) (self : EuroparlMeetingFetcher)
  : EuroparlMeetingFetcher :=
  mkEuroparlMeetingFetcher b (referer_url self) (member_id self).

(** [f"{self.base_url}"] *)
Definition format_base_url (u : option str) : str :=
  match u with Some s => s | None => lit "None" end.

Definition params (member_id : str) (page : Z) : list (str * str) :=
  [ (lit "meetingType", lit "PAST");
    (lit "memberId", member_id);
    (lit "termId", lit "10");
    (lit "page", str_of_int page);
    (lit "pageSize", lit "10") ].

Definition constructed_url (base_url : option str) (member_id : str)
           (page : Z) : str :=
  format_base_url base_url ++ lit "?" ++ urlencode (params member_id page).

Definition construct_or_retrieve_links (page : Z)
  : M EuroparlMeetingFetcher unit :=
  self <- get_self ;;
  let b := super self in
  let url := constructed_url (base_url b) (member_id self) page in
  put_self (with_super (set_article_links (article_links b ++ [url]) b) self).

(** ** [parse_article] *)

(** [int(re.search(r"page=(\d+)", article_url).group(1))], and 0 when
    that raises. *)
Definition page_of (article_url : str) : Z :=
  match search match_page article_url with
  | Some group1 =>
      match int_of_digits group1 with
      | Some n => n
      | None => 0%Z
      end
  | None => 0%Z
  end.

Section Parse.
Context {Node : Type} `{API Node}.

(** Calling a method on what [select_one] returned: on [None] this is
    an [AttributeError]. *)
Definition call {A} (found : Exception + option Node) (method : str)
           (f : Node -> Exception + A) : Exception + A :=
  match found with
  | inl e => inl e
  | inr None =>
      inl (AttributeError
             (lit "'NoneType' object has no attribute '" ++ method ++ lit "'"))
  | inr (Some node) => f node
  end.

Definition fmap {A B} (f : A -> B) (r : Exception + A) : Exception + B :=
  match r with inl e => inl e | inr a => inr (f a) end.

Definition optional (o : option str) : PyVal :=
  match o with Some s => PyString s | None => PyNone end.

(** [.get_text()] *)
Definition text_of (header : Node) (selector : str) : Exception + PyVal :=
  call (select_one header selector) (lit "get_text")
       (fun node => fmap PyString (get_text node)).

(** [.get_text().strip().replace("\n", " - ")] *)
Definition stripped_text_of (header : Node) (selector : str)
  : Exception + PyVal :=
  call (select_one header selector) (lit "get_text")
       (fun node =>
          fmap (fun t => PyString (replace_newline (lit " - ") (strip t)))
               (get_text node)).

Definition Title (header : Node) : Exception + PyVal :=
  text_of header (lit ".t-item").

Definition Date (header : Node) : Exception + PyVal :=
  call (select_one header (lit "time")) (lit "get")
       (fun node => fmap optional (get node (lit "datetime"))).

Definition Place (header : Node) : Exception + PyVal :=
  text_of header (lit ".erpl_document-subtitle-location").

Definition Capacity (header : Node) : Exception + PyVal :=
  stripped_text_of header (lit ".erpl_document-subtitle-capacity").

Definition Code (header : Node) : Exception + PyVal :=
  stripped_text_of header (lit ".erpl_badge-committee").

Definition Meeting_with (header : Node) : Exception + PyVal :=
  stripped_text_of header (lit ".erpl_document-subtitle-author").

(** One [try: record[key] = ... except Exception as e: ...] block: the
    trace it leaves and the record after it. *)
Definition try_field (record : list Event * dict) (key : str)
           (extracted : Exception + PyVal) (message : str)
  : list Event * dict :=
  match extracted with
  | inr v => (fst record, dict_set (snd record) key v)
  | inl e =>
      (fst record ++ [Log WARNING message [AExc e]],
       dict_set (snd record) key PyNone)
  end.

Definition key_Code : str :=
  lit "Code of associated committee or delegation".

(** The body of the loop over the headers. *)
Definition record_of (page : Z) (header : Node) : list Event * dict :=
  let r := ([], []) in
  let r := try_field r (lit "Title") (Title header)
                     (lit "Failed to retrieve title: {}") in
  let r := try_field r (lit "Date") (Date header)
                     (lit "Failed to retrieve date: {}") in
  let r := try_field r (lit "Place") (Place header)
                     (lit "Failed to retrieve place: {}") in
  let r := try_field r (lit "Capacity") (Capacity header)
                     (lit "Failed to retrieve capacity: {}") in
  let r := try_field r key_Code (Code header)
                     (lit "Failed to retrieve code: {}") in
  let r := try_field r (lit "Meeting with") (Meeting_with header)
                     (lit "Failed to retrieve meeting: {}") in
  (fst r, dict_set (snd r) (lit "page_number") (PyInt page)).

Fixpoint records_of (page : Z) (headers : list Node)
  : list Event * list dict :=
  match headers with
  | [] => ([], [])
  | header :: rest =>
      let (log1, record) := record_of page header in
      let (log2, meetings) := records_of page rest in
      (log1 ++ log2, record :: meetings)
  end.

(** The headers of a page: the soup, then the selection. *)
Definition headers_of (article_html : str) : Exception + list Node :=
  match BeautifulSoup article_html with
  | inl e => inl e
  | inr soup => select soup (lit ".erpl_document-header")
  end.

(** [parse_article], with the trace it leaves. *)
Definition parse (article_html article_url : str)
  : list Event * option (list dict) :=
  if (List.length (strip article_html) =? 0)%nat then ([], None)
  else
    let page := page_of article_url in
    match headers_of article_html with
    | inr headers =>
        let (log, meetings) := records_of page headers in
        (log, Some meetings)
    | inl e =>
        ([Log ERROR (lit "Failed to parse page: {}: {}")
              [AStr article_url; AExc e]],
         None)
    end.

Definition parse_article (article_html article_url : str)
  : M EuroparlMeetingFetcher (option (list dict)) :=
  fun self =>
    let (log, result) := parse article_html article_url in
    mkOutcome log self (inr result).

#[export] Instance Europarl_Fetcher : Fetcher EuroparlMeetingFetcher :=
  {| base := super;
     with_base := with_super;
     Base.construct_or_retrieve_links := construct_or_retrieve_links;
     Base.parse_article := parse_article |}.
End Parse.

(** The usage the docstring of [__init__] shows: construct the fetcher
    from the referer, then run it.  A constructor that raises ends it
    there. *)
Definition usage {Node : Type} `{API Node} (net : Network)
           (completion : list nat) (referer_url : str) (pages : Z)
  : list Event * (Exception + EuroparlMeetingFetcher) :=
  match new referer_url with
  | inl e => ([], inl e)
  | inr fetcher =>
      let o := run_async net completion pages fetcher in
      (events o,
       match value o with
       | inl e => inl e
       | inr _ => inr (self_after o)
       end)
  end.

(** The statements at the end of the module, which run when it is
    imported: one GET, outside any fetcher and any run ([httpx.get] has a
    default timeout of 5 seconds). *)
Definition module_level : list Event :=
  [HttpGet (loadmore_url
            ++ lit "?meetingType=PAST&memberId=256864&termId=10&page=1000&pageSize=10")
           5].

End Europarl.

Import Europarl.

(* ===================================================================== *)
(** * The tasks of [fetch_all_articles] on the event loop *)
(* ===================================================================== *)

Module EventLoop.

(** Where the coroutine [fetch_article(client, url)] of one task stands:
    not yet run, suspended in [await client.get] of some attempt,
    suspended in the sleep after a failed attempt, or finished. *)
Inductive Task : Type :=
| Created
| AwaitingGet (attempt : nat)
| Sleeping (attempt : nat)
| Done (result : Exception + option str).

(** The loop: one task per link, and the semaphore of the fetcher. *)
Record Loop : Type := mkLoop
  { tasks : list Task;
    sem : Semaphore }.

(** [fetch_all_articles] creates one coroutine per link. *)
Definition spawn (b : BaseFetcher) : Loop :=
  mkLoop (map (fun _ => Created) (article_links b)) (semaphore b).

(** What the loop does next: run task [i] up to its first [await], hand
    task [i] the reply to its pending GET, or end the sleep of task [i]. *)
Inductive Action : Type :=
| Start (i : nat)
| Deliver (i : nat)
| Wake (i : nat).

Fixpoint update {A} (l : list A) (i : nat) (x : A) : list A :=
  match l, i with
  | [], _ => []
  | _ :: t, O => x :: t
  | y :: t, S i' => y :: update t i' x
  end.

(** One step.  [fetch_article] goes from its entry straight to
    [client.get]: it neither acquires nor releases [self.semaphore], so no
    step reads or changes [sem]. *)
Definition step (net : Network) (l : Loop) (a : Action) : option Loop :=
  match a with
  | Start i =>
      match nth_error (tasks l) i with
      | Some Created => Some (mkLoop (update (tasks l) i (AwaitingGet 1)) (sem l))
      | _ => None
      end
  | Deliver i =>
      match nth_error (tasks l) i with
      | Some (AwaitingGet k) =>
          let next :=
            match checked (net i k) with
            | inr body => Done (inr body)
            | inl e => if 3 <=? k then Done (inl (RetryError e)) else Sleeping k
            end in
          Some (mkLoop (update (tasks l) i next) (sem l))
      | _ => None
      end
  | Wake i =>
      match nth_error (tasks l) i with
      | Some (Sleeping k) =>
          Some (mkLoop (update (tasks l) i (AwaitingGet (S k))) (sem l))
      | _ => None
      end
  end.

Fixpoint exec (net : Network) (l : Loop) (schedule : list Action)
  : option Loop :=
  match schedule with
  | [] => Some l
  | a :: rest =>
      match step net l a with
      | Some l' => exec net l' rest
      | None => None
      end
  end.

(** The number of GETs in flight. *)
Definition in_flight (l : Loop) : nat :=
  List.length (filter (fun t => match t with AwaitingGet _ => true | _ => false end)
                      (tasks l)).

(** [gather] schedules every task at once: each runs to its first
    [await]. *)
Definition start_all (l : Loop) : list Action :=
  map Start (seq 0 (List.length (tasks l))).

End EventLoop.

(* ===================================================================== *)
(** * Inputs used in the examples *)
(* ===================================================================== *)

Module Example.

(** The referer of the docstrings. *)
Definition referer : str :=
  lit "https://www.europarl.europa.eu/meps/en/256864/ANDRAS+TIVADAR_KULJA/meetings/past".

Definition div (class : string) (contents : list PageElement) : PageElement :=
  Tag (lit "div") [lit class] [] contents.

Definition text (s : string) : PageElement := NavigableString (lit s).

(** A meeting header with all six elements. *)
Definition meeting (title : string) : PageElement :=
  div "erpl_document-header"
      [ Tag (lit "h3") [lit "t-item"] [] [text title];
        Tag (lit "time") [] [(lit "datetime", lit "2024-10-01")] [text "1 Oct"];
        div "erpl_document-subtitle-location" [text "Brussels"];
        div "erpl_document-subtitle-capacity" [text " Member "];
        div "erpl_badge-committee" [text "ENVI"];
        div "erpl_document-subtitle-author" [text "ACME"] ].

(** The same header without its [time] element. *)
Definition meeting_without_date (title : string) : PageElement :=
  div "erpl_document-header"
      [ Tag (lit "h3") [lit "t-item"] [] [text title];
        div "erpl_document-subtitle-location" [text "Brussels"];
        div "erpl_document-subtitle-capacity" [text " Member "];
        div "erpl_badge-committee" [text "ENVI"];
        div "erpl_document-subtitle-author" [text "ACME"] ].

Definition document (contents : list PageElement) : PageElement :=
  Tag (lit "[document]") [] [] contents.

(** A parser that knows three bodies by name and reads any other as
    plain text. *)
Definition parser (markup : str) : Exception + PageElement :=
  if str_eqb markup (lit "<two meetings>")
  then inr (document [meeting "A"; meeting "B"])
  else if str_eqb markup (lit "<one meeting, no date>")
  then inr (document [meeting_without_date "C"])
  else if str_eqb markup (lit "<malformed>")
  then inl (OtherException (lit "malformed document"))
  else inr (document [NavigableString markup]).

Definition api : API PageElement := tree_api parser.

(** Every GET answered with status 200: the referer page has no meeting
    markup, page 1 has two meetings, the other pages are blank. *)
Definition net_ok : Network :=
  fun task _ =>
    match task with
    | 0 => Response 200 (lit "<html>profile</html>")
    | 1 => Response 200 (lit "<two meetings>")
    | _ => Response 200 (lit " ")
    end.

(** The same network, except that every GET of the task at position 2
    is answered with status 500. *)
Definition net_page2_down : Network :=
  fun task attempt =>
    match task with
    | 2 => Response 500 (lit "Internal Server Error")
    | _ => net_ok task attempt
    end.

(** The fetcher [EuroparlMeetingFetcher(referer_url=referer)]. *)
Definition fetcher : EuroparlMeetingFetcher :=
  mkEuroparlMeetingFetcher
    (mkBaseFetcher (Some loadmore_url) [referer] [] 10 (mkSemaphore 8))
    referer (lit "256864").



(** Replies to the attempts of one task: always a refused connection. *)
Definition always_refused : nat -> Reply :=
  fun _ => Failure (TransportError (lit "connection refused")).

End Example.

(* ===================================================================== *)
(** * A fetcher whose link retrieval fails *)
(* ===================================================================== *)

Module Flaky.

(** A subclass of [BaseFetcher] with no attribute of its own: its
    [construct_or_retrieve_links] appends the page number as a link and
    raises on page 2; its [parse_article] returns [None]. *)
Definition construct_or_retrieve_links (page : Z) : M BaseFetcher unit :=
  if (page =? 2)%Z then raise (OtherException (lit "no links on this page"))
  else
    self <- get_self ;;
    put_self (set_article_links (article_links self ++ [str_of_int page]) self).

Definition parse_article (article_html article_url : str)
  : M BaseFetcher (option (list dict)) :=
  ret None.

Definition Flaky_Fetcher : Fetcher BaseFetcher :=
  {| base := fun self => self;
     with_base := fun b _ => b;
     Base.construct_or_retrieve_links := construct_or_retrieve_links;
     Base.parse_article := parse_article |}.

Definition fetcher : BaseFetcher :=
  mkBaseFetcher None [] [] 10 (mkSemaphore 3).

End Flaky.

(* ===================================================================== *)
(** * A transport on which two pages are down *)
(* ===================================================================== *)

Module Outage.

(** The referer is served; every GET of the task at position 1 is
    answered with status 500 and every GET of the task at position 2 with
    status 404. *)
Definition net : Network :=
  fun task _ =>
    match task with
    | 0 => Response 200 (lit "<html>profile</html>")
    | 1 => Response 500 (lit "Internal Server Error")
    | _ => Response 404 (lit "Not Found")
    end.

End Outage.

(* ===================================================================== *)
(** * Vocabulary of the statements *)
(* ===================================================================== *)

(** A digit run between two slashes, at the head of [s]. *)
Definition member_segment (ds s : str) : Prop :=
  ds <> [] /\ forallb is_digit ds = true
  /\ exists post, s = lit "/" ++ ds ++ lit "/" ++ post.

Definition member_id_not_found : Exception :=
  ValueError (lit "Member ID not found in the referer URL").

(** The part of a constructed URL before the page number, and the part
    after it. *)
Definition url_prefix (member_id : str) : str :=
  loadmore_url ++ lit "?meetingType=PAST&memberId=" ++ quote_plus member_id
  ++ lit "&termId=10&page=".

Definition url_suffix : str := lit "&pageSize=10".

(** The object after planning: the constructed links appended to the
    links it already had. *)
Definition planned (self : EuroparlMeetingFetcher) (pages : list Z)
  : EuroparlMeetingFetcher :=
  with_super
    (set_article_links
       (article_links (super self)
        ++ map (constructed_url (base_url (super self)) (member_id self)) pages)
       (super self))
    self.

(** The two warnings [fetch_article] logs when an attempt fails. *)
Definition failure_log (article_url : str) (e : Exception) : list Event :=
  [ Log WARNING (lit "Failed to fetch {}: {}") [AStr article_url; AExc e];
    Log WARNING (lit "Retrying {}...") [AStr article_url] ].

(** What [fetch_article] ends with, given the replies to its attempts:
    the body of the first of the three attempts that succeeds, or the
    [RetryError] around the third failure. *)
Definition fetched (replies : nat -> Reply) : Exception + option str :=
  match checked (replies 1) with
  | inr body => inr body
  | inl _ =>
      match checked (replies 2) with
      | inr body => inr body
      | inl _ =>
          match checked (replies 3) with
          | inr body => inr body
          | inl e => inl (RetryError e)
          end
      end
  end.

(** The records one page contributes to [self.articles]. *)
Definition page_records {Node : Type} `{API Node}
           (article_html article_url : str) : list dict :=
  match snd (parse article_html article_url) with
  | Some meetings => meetings
  | None => []
  end.

(** The trace and the results of parsing the bodies in order, as
    [parse_all] does for this fetcher. *)
Fixpoint parse_pages {Node : Type} `{API Node}
         (pairs : list (option str * str))
  : list Event * list (option (list dict)) :=
  match pairs with
  | [] => ([], [])
  | (Some article_html, article_url) :: rest =>
      let (log1, parsed) := parse article_html article_url in
      let (log2, others) := parse_pages rest in
      (log1 ++ log2, parsed :: others)
  | (None, _) :: rest => parse_pages rest
  end.

(** The tasks [fetch_all_articles] creates for a list of links. *)
Definition fetch_tasks {Self : Type} `{Fetcher Self} (net : Network)
           (links : list str) : list (M Self (option str)) :=
  map (fun '(i, article_url) => fetch_article (net i) article_url)
      (enumerate links).

(** The order [sorted] sorts by. *)
Definition le_index {A : Type} (x y : nat * A) : Prop := fst x <= fst y.

(** What a [try] block of [parse_article] stores for a field: the
    extracted value, or [None] when the extraction raised. *)
Definition or_None (extracted : Exception + PyVal) : PyVal :=
  match extracted with
  | inr v => v
  | inl _ => PyNone
  end.


(** The record of a header, field by field. *)
Definition record_fields {Node : Type} `{API Node} (page : Z) (header : Node)
  : dict :=
  [ (lit "Title", or_None (Title header));
    (lit "Date", or_None (Date header));
    (lit "Place", or_None (Place header));
    (lit "Capacity", or_None (Capacity header));
    (key_Code, or_None (Code header));
    (lit "Meeting with", or_None (Meeting_with header));
    (lit "page_number", PyInt page) ].


Definition parse_failure_log (article_url : str) (e : Exception) : list Event :=
  [Log ERROR (lit "Failed to parse page: {}: {}") [AStr article_url; AExc e]].

(** What the state of the task at position [i] says about the replies
    to its attempts. *)
Definition consistent (net : Network) (i : nat) (t : EventLoop.Task) : Prop :=
  match t with
  | EventLoop.Created => True
  | EventLoop.AwaitingGet k =>
      1 <= k <= 3
      /\ forall j, 1 <= j < k -> exists e, checked (net i j) = inl e
  | EventLoop.Sleeping k =>
      1 <= k < 3
      /\ forall j, 1 <= j <= k -> exists e, checked (net i j) = inl e
  | EventLoop.Done result => result = fetched (net i)
  end.


(** The GETs and the sleeps of a trace. *)
Definition count_gets (trace : list Event) : nat :=
  List.length (filter is_HttpGet trace).

Definition count_sleeps (trace : list Event) : nat :=
  List.length (filter is_Sleep trace).

(** The warning a [try] block of [parse_article] logs: none when the
    extraction returns, one when it raises. *)
Definition field_warning (message : str) (extracted : Exception + PyVal)
  : list Event :=
  match extracted with
  | inl e => [Log WARNING message [AExc e]]
  | inr _ => []
  end.

(** The warnings of one header, in the order of the [try] blocks. *)
Definition record_warnings {Node : Type} `{API Node} (header : Node)
  : list Event :=
  field_warning (lit "Failed to retrieve title: {}") (Title header)
  ++ field_warning (lit "Failed to retrieve date: {}") (Date header)
  ++ field_warning (lit "Failed to retrieve place: {}") (Place header)
  ++ field_warning (lit "Failed to retrieve capacity: {}") (Capacity header)
  ++ field_warning (lit "Failed to retrieve code: {}") (Code header)
  ++ field_warning (lit "Failed to retrieve meeting: {}") (Meeting_with header).

(** A string that neither starts nor ends with whitespace. *)
Definition no_outer_space (s : str) : Prop :=
  (forall c t, s = c :: t -> is_space c = false)
  /\ (forall t c, s = t ++ [c] -> is_space c = false).

(** The warning [fetch_all_articles] logs when the links of a page cannot
    be retrieved. *)
Definition links_failure_log (page : Z) (e : Exception) : list Event :=
  [Log WARNING (lit "Failed to retrieve links from page {}: {}")
       [AInt page; AExc e]].

(** The URL [construct_or_retrieve_links] builds, part by part. *)
Definition page_url (base_url : option str) (member_id : str) (page : Z) : str :=
  format_base_url base_url ++ lit "?meetingType=PAST&memberId="
  ++ quote_plus member_id ++ lit "&termId=10&page=" ++ str_of_int page
  ++ lit "&pageSize=10".

(** A schedule that runs the task at position [i] from its creation to
    its end: start it, deliver the reply, and while the attempt failed
    and attempts remain, end the sleep and deliver the next reply. *)
Definition task_schedule (net : Network) (i : nat) : list EventLoop.Action :=
  EventLoop.Start i :: EventLoop.Deliver i ::
  match checked (net i 1) with
  | inr _ => []
  | inl _ =>
      EventLoop.Wake i :: EventLoop.Deliver i ::
      match checked (net i 2) with
      | inr _ => []
      | inl _ => [EventLoop.Wake i; EventLoop.Deliver i]
      end
  end.

(** The tasks one after the other. *)
Definition sequential_schedule (net : Network) (n : nat)
  : list EventLoop.Action :=
  flat_map (task_schedule net) (seq 0 n).

(** The tasks that are still running. *)
Definition unfinished (l : EventLoop.Loop) : nat :=
  List.length
    (filter (fun t => match t with EventLoop.Done _ => false | _ => true end)
            (EventLoop.tasks l)).

(** The number of steps a task can still take. *)
Definition steps_left (t : EventLoop.Task) : nat :=
  match t with
  | EventLoop.Created => 6
  | EventLoop.AwaitingGet k => 1 + 2 * (3 - k)
  | EventLoop.Sleeping k => 2 * (3 - k)
  | EventLoop.Done _ => 0
  end.

Definition total_steps_left (l : EventLoop.Loop) : nat :=
  list_sum (map steps_left (EventLoop.tasks l)).

(* ===================================================================== *)
(** * Properties *)
(* ===================================================================== *)

(** ** Strings and the regular expressions *)

Lemma lit_prefix_app (p t : str) : lit_prefix p (p ++ t) = Some t.
Proof.
  induction p as [|a p IH]; simpl; [reflexivity|].
  now rewrite Ascii.eqb_refl.
Qed.

Lemma lit_prefix_inv (p s t : str) : lit_prefix p s = Some t -> s = p ++ t.
Proof.
  revert s; induction p as [|a p IH]; intros s Hs; simpl in *.
  - now inversion Hs.
  - destruct s as [|b s]; [discriminate|].
    destruct (Ascii.eqb a b) eqn:E; [|discriminate].
    apply Ascii.eqb_eq in E; subst b. now rewrite (IH _ Hs).
Qed.

Lemma span_digits_inv (s ds rest : str) :
  span_digits s = (ds, rest) ->
  s = ds ++ rest /\ forallb is_digit ds = true
  /\ match rest with c :: _ => is_digit c = false | [] => True end.
Proof.
  revert ds rest; induction s as [|c s IH]; intros ds rest Hs; simpl in Hs.
  - inversion Hs; subst; simpl; auto.
  - destruct (is_digit c) eqn:Ec.
    + destruct (span_digits s) as [ds' rest'] eqn:E.
      inversion Hs; subst; clear Hs.
      destruct (IH _ _ eq_refl) as (-> & Hd & Hr).
      simpl. rewrite Ec, Hd. auto.
    + inversion Hs; subst; simpl; auto.
Qed.

Lemma span_digits_app (ds rest : str) :
  forallb is_digit ds = true ->
  match rest with c :: _ => is_digit c = false | [] => True end ->
  span_digits (ds ++ rest) = (ds, rest).
Proof.
  intros Hd Hr; induction ds as [|c ds IH]; simpl in *.
  - destruct rest as [|c rest]; [reflexivity|]. simpl. now rewrite Hr.
  - apply andb_prop in Hd as [Hc Hd]. now rewrite Hc, (IH Hd).
Qed.

Lemma match_member_id_iff (s ds : str) :
  match_member_id s = Some ds <-> member_segment ds s.
Proof.
  unfold match_member_id, member_segment; split.
  - destruct (lit_prefix (lit "/") s) as [t|] eqn:E1; [|discriminate].
    apply lit_prefix_inv in E1; subst s.
    destruct (span_digits t) as [ds' rest] eqn:E2.
    apply span_digits_inv in E2 as (-> & Hd & _).
    destruct ds' as [|d ds']; [discriminate|].
    destruct (lit_prefix (lit "/") rest) as [post|] eqn:E3; [|discriminate].
    apply lit_prefix_inv in E3; subst rest.
    intros Hs; inversion Hs; subst; clear Hs.
    repeat split; [discriminate|exact Hd|now exists post].
  - intros (Hne & Hd & post & ->).
    rewrite lit_prefix_app, span_digits_app by (simpl; auto).
    destruct ds as [|d ds]; [contradiction|].
    now rewrite lit_prefix_app.
Qed.

(** [search] returns the match at the leftmost position that has one. *)
Lemma search_leftmost {A} (m : str -> option A) (pre t : str) (a : A) :
  m t = Some a ->
  (forall pre' t', pre ++ t = pre' ++ t' ->
                   List.length pre' < List.length pre -> m t' = None) ->
  search m (pre ++ t) = Some a.
Proof.
  revert t; induction pre as [|c pre IH]; intros t Hm Hfirst.
  - simpl. destruct t; simpl; now rewrite Hm.
  - simpl. rewrite (Hfirst [] (c :: pre ++ t)) by (simpl; auto; lia).
    apply IH; [exact Hm|].
    intros pre' t' E Hl. apply (Hfirst (c :: pre') t'); simpl; [now rewrite E|lia].
Qed.

Lemma search_Some_inv {A} (m : str -> option A) (s : str) (a : A) :
  search m s = Some a -> exists pre t, s = pre ++ t /\ m t = Some a.
Proof.
  induction s as [|c s IH]; simpl.
  - destruct (m []) eqn:E; [|discriminate].
    intros Hs; inversion Hs; subst. now exists [], [].
  - destruct (m (c :: s)) eqn:E.
    + intros Hs; inversion Hs; subst. now exists [], (c :: s).
    + intros Hs. destruct (IH Hs) as (pre & t & -> & Hm).
      now exists (c :: pre), t.
Qed.

Lemma search_None_inv {A} (m : str -> option A) (pre t : str) :
  search m (pre ++ t) = None -> m t = None.
Proof.
  induction pre as [|c pre IH]; simpl.
  - destruct t; simpl; destruct (m _); congruence.
  - destruct (m (c :: pre ++ t)); [discriminate|exact IH].
Qed.

(** ** Target derivation *)

(** C8.  [extract_member_id] returns the digit run of the leftmost
    [/<digits>/] segment of the referer (["256864"] for the referer of the
    docstring).  On a referer with no such segment it raises [ValueError];
    the constructor then raises it too, and constructing-then-running ends
    with that error and an empty trace: no GET, no sleep, no log record. *)
Theorem extract_member_id_leftmost_segment :
  extract_member_id Example.referer = inr (lit "256864")
  /\ forall referer_url : str,
      (forall pre ds t,
          referer_url = pre ++ t ->
          member_segment ds t ->
          (forall pre' ds' t',
              referer_url = pre' ++ t' -> member_segment ds' t' ->
              List.length pre <= List.length pre') ->
          extract_member_id referer_url = inr ds)
      /\ ((forall pre ds t, referer_url = pre ++ t -> ~ member_segment ds t) ->
          extract_member_id referer_url = inl member_id_not_found
          /\ new referer_url = inl member_id_not_found
          /\ forall Node (api : API Node) net completion pages,
              usage net completion referer_url pages
              = ([], inl member_id_not_found)).
Proof.
  split; [reflexivity|].
  intros referer_url; split.
  - intros pre ds t -> Hseg Hfirst. unfold extract_member_id.
    rewrite (search_leftmost match_member_id pre t ds); [reflexivity| |].
    + now apply match_member_id_iff.
    + intros pre' t' E Hlt.
      destruct (match_member_id t') as [ds'|] eqn:Em; [|reflexivity].
      apply match_member_id_iff in Em.
      specialize (Hfirst pre' ds' t' E Em). lia.
  - intros Hnone.
    assert (E : extract_member_id referer_url = inl member_id_not_found).
    { unfold extract_member_id.
      destruct (search match_member_id referer_url) as [ds|] eqn:Es;
        [|reflexivity].
      apply search_Some_inv in Es as (pre & t & -> & Hm).
      apply match_member_id_iff in Hm. now destruct (Hnone pre ds t eq_refl). }
    assert (E' : new referer_url = inl member_id_not_found).
    { unfold new, init. simpl. now rewrite E. }
    repeat split; [exact E|exact E'|].
    intros Node api net completion pages. unfold usage. now rewrite E'.
Qed.

Lemma extract_member_id_leftmost_segment_witness :
  extract_member_id (lit "/7/x/8/") = inr (lit "7")
  /\ new (lit "no id") = inl member_id_not_found.
Proof.
  destruct extract_member_id_leftmost_segment as [_ H].
  split.
  - apply (proj1 (H (lit "/7/x/8/")) [] (lit "7") (lit "/7/x/8/")).
    + reflexivity.
    + unfold member_segment.
      split; [discriminate|split; [reflexivity|exists (lit "x/8/"); reflexivity]].
    + intros; simpl; lia.
  - apply (proj2 (H (lit "no id"))).
    intros pre ds t E (_ & _ & post & ->).
    do 6 (destruct pre as [|? pre]; [discriminate E|]).
    destruct pre; discriminate E.
Defined.

Lemma module_level_one_get :
  filter is_HttpGet module_level = module_level
  /\ List.length module_level = 1.
Proof. split; reflexivity. Qed.

(** ** Planning *)

Lemma quote_plus_digits (ds : str) :
  forallb is_digit ds = true -> quote_plus ds = ds.
Proof.
  induction ds as [|c ds IH]; simpl; [reflexivity|].
  intros Hd. apply andb_prop in Hd as [Hc Hd].
  unfold quote_plus in *. simpl. rewrite (IH Hd).
  unfold quote_plus_char, always_safe. rewrite Hc.
  now rewrite orb_true_r.
Qed.

Lemma string_of_uint_digits (d : Decimal.uint) :
  forallb is_digit (list_ascii_of_string (NilEmpty.string_of_uint d)) = true.
Proof. induction d; simpl; auto. Qed.

Lemma str_of_int_digits (z : Z) :
  (0 <= z)%Z -> forallb is_digit (str_of_int z) = true.
Proof.
  intros Hz. unfold str_of_int.
  destruct z as [|p|p]; [reflexivity| |lia].
  apply string_of_uint_digits.
Qed.

Lemma str_of_int_nonempty (z : Z) : str_of_int z <> [].
Proof.
  unfold str_of_int.
  destruct z as [|p|p]; simpl; try discriminate.
  pose proof (DecimalPos.Unsigned.to_uint_nonnil p) as Hn.
  destruct (Pos.to_uint p); simpl; congruence.
Qed.

Lemma quote_plus_str_of_int (z : Z) : quote_plus (str_of_int z) = str_of_int z.
Proof.
  destruct z as [|p|p]; [reflexivity|apply quote_plus_digits,
                                      (str_of_int_digits (Z.pos p)); lia|].
  unfold str_of_int. simpl.
  change (quote_plus (?c :: ?t)) with (quote_plus_char c ++ quote_plus t).
  rewrite quote_plus_digits by apply string_of_uint_digits. reflexivity.
Qed.

Lemma constructed_url_shape (member_id : str) (page : Z) :
  constructed_url (Some loadmore_url) member_id page
  = url_prefix member_id ++ str_of_int page ++ url_suffix.
Proof.
  unfold constructed_url, url_prefix, url_suffix, urlencode, params.
  cbn [map join fst snd format_base_url].
  rewrite quote_plus_str_of_int.
  change (quote_plus (lit "meetingType")) with (lit "meetingType").
  change (quote_plus (lit "PAST")) with (lit "PAST").
  change (quote_plus (lit "memberId")) with (lit "memberId").
  change (quote_plus (lit "termId")) with (lit "termId").
  change (quote_plus (lit "10")) with (lit "10").
  change (quote_plus (lit "page")) with (lit "page").
  change (quote_plus (lit "pageSize")) with (lit "pageSize").
  repeat rewrite <- List.app_assoc. reflexivity.
Qed.

Ltac run_monad :=
  unfold bind, try_except, ret, raise, emit, get_self, put_self, lift;
  cbn [events self_after value app].

Lemma bind_eq {Self A B} (c : M Self A) (k : A -> M Self B) (self : Self) :
  bind c k self
  = match value (c self) with
    | inl e => mkOutcome (events (c self)) (self_after (c self)) (inl e)
    | inr a =>
        mkOutcome (events (c self) ++ events (k a (self_after (c self))))
                  (self_after (k a (self_after (c self))))
                  (value (k a (self_after (c self))))
    end.
Proof. reflexivity. Qed.

Lemma with_super_eta (self : EuroparlMeetingFetcher) :
  with_super (super self) self = self.
Proof. now destruct self. Qed.

Lemma set_article_links_eta (b : BaseFetcher) :
  set_article_links (article_links b) b = b.
Proof. now destruct b. Qed.

Lemma set_articles_eta (b : BaseFetcher) : set_articles (articles b) b = b.
Proof. now destruct b. Qed.

Section Planning.
Context {Node : Type} {api : API Node}.

Lemma retrieve_links_outcome (pages : list Z) (self : EuroparlMeetingFetcher) :
  retrieve_links pages self = mkOutcome [] (planned self pages) (inr tt).
Proof.
  revert self; induction pages as [|page rest IH]; intros self.
  - unfold planned. cbn [retrieve_links map]. run_monad.
    now rewrite List.app_nil_r, set_article_links_eta, with_super_eta.
  - cbn [retrieve_links]. run_monad.
    cbn [Base.construct_or_retrieve_links Europarl_Fetcher].
    unfold construct_or_retrieve_links. run_monad.
    rewrite IH. cbn [events self_after value app].
    f_equal. unfold planned.
    destruct self as [b r m]; cbn. now rewrite <- List.app_assoc.
Qed.
End Planning.

Lemma extract_member_id_digits (referer_url id : str) :
  extract_member_id referer_url = inr id ->
  id <> [] /\ forallb is_digit id = true.
Proof.
  unfold extract_member_id.
  destruct (search match_member_id referer_url) as [ds|] eqn:Es; [|discriminate].
  intros E; inversion E; subst; clear E.
  apply search_Some_inv in Es as (pre & t & _ & Hm).
  apply match_member_id_iff in Hm as (Hne & Hd & _). now split.
Qed.

Lemma init_inv (referer_url : str) (timeout max_connections : Z)
      (fetcher : EuroparlMeetingFetcher) :
  init referer_url timeout max_connections = inr fetcher ->
  extract_member_id referer_url = inr (member_id fetcher)
  /\ super fetcher
     = mkBaseFetcher (Some loadmore_url) [referer_url] [] timeout
                     (mkSemaphore max_connections)
  /\ referer_url = Europarl.referer_url fetcher.
Proof.
  unfold init, BaseFetcher_init, Semaphore_init.
  destruct (max_connections <? 0)%Z; [discriminate|].
  destruct (extract_member_id referer_url) as [e|id]; [discriminate|].
  intros E; inversion E; subst; clear E. cbn. auto.
Qed.

Lemma nth_error_page_range (pages k : Z) :
  (1 <= k <= pages)%Z ->
  nth_error (page_range pages) (Z.to_nat k - 1) = Some k.
Proof.
  intros Hk. unfold page_range.
  rewrite nth_error_map, nth_error_seq.
  destruct (Nat.ltb_spec (Z.to_nat k - 1) (Z.to_nat pages)) as [_|Hge]; [|lia].
  cbn. f_equal. lia.
Qed.

(** C1, as the code has it.  After the planning loop of the first run on
    a freshly constructed fetcher, [article_links] holds [pages + 1] URLs:
    the referer at position 0, then the constructed URLs of pages 1 to
    [pages] in ascending order, the URL of page [k] at position [k].  The
    constructed URLs are one fixed prefix and one fixed suffix around the
    decimal page number, so they differ in the value of [page] only; the
    list is a function of the referer and the page count. *)
Theorem planning_links_referer_then_pages :
  forall (Node : Type) (api : API Node) (referer_url : str)
         (timeout max_connections : Z) (fetcher : EuroparlMeetingFetcher)
         (pages : Z),
    init referer_url timeout max_connections = inr fetcher ->
    let o := retrieve_links (page_range pages) fetcher in
    let links := article_links (super (self_after o)) in
    let page_url := fun page : Z =>
      url_prefix (member_id fetcher) ++ str_of_int page ++ url_suffix in
    extract_member_id referer_url = inr (member_id fetcher)
    /\ quote_plus (member_id fetcher) = member_id fetcher
    /\ value o = inr tt
    /\ links = referer_url :: map page_url (page_range pages)
    /\ List.length links = S (Z.to_nat pages)
    /\ forall k : Z, (1 <= k <= pages)%Z ->
                     nth_error links (Z.to_nat k) = Some (page_url k).
Proof.
  intros Node api referer_url timeout max_connections fetcher pages Hinit
         o links page_url.
  destruct (init_inv _ _ _ _ Hinit) as (Hid & Hsuper & _).
  destruct (extract_member_id_digits _ _ Hid) as [_ Hd].
  assert (Hlinks : links = referer_url :: map page_url (page_range pages)).
  { subst links o. rewrite retrieve_links_outcome. cbn [self_after].
    unfold planned. rewrite Hsuper. cbn.
    f_equal. apply map_ext. intros page. apply constructed_url_shape. }
  repeat split.
  - exact Hid.
  - now apply quote_plus_digits.
  - subst o. now rewrite retrieve_links_outcome.
  - exact Hlinks.
  - rewrite Hlinks. cbn [List.length]. unfold page_range.
    now rewrite !length_map, length_seq.
  - intros k Hk. rewrite Hlinks.
    replace (Z.to_nat k) with (S (Z.to_nat k - 1)) by lia.
    cbn [nth_error]. rewrite nth_error_map, nth_error_page_range by exact Hk.
    reflexivity.
Qed.

Lemma planning_links_referer_then_pages_witness :
  exists fetcher,
    new Example.referer = inr fetcher
    /\ article_links
         (super (self_after
                   (@retrieve_links _ (@Europarl_Fetcher _ Example.api)
                                    (page_range 2) fetcher)))
       = [ Example.referer;
           url_prefix (lit "256864") ++ lit "1" ++ url_suffix;
           url_prefix (lit "256864") ++ lit "2" ++ url_suffix ].
Proof.
  destruct (new Example.referer) as [e|fetcher] eqn:E; [discriminate E|].
  exists fetcher. split; [reflexivity|].
  destruct (planning_links_referer_then_pages
              _ Example.api Example.referer Base.default_timeout
              default_max_connections fetcher 2 E)
    as (_ & _ & _ & Hlinks & _).
  rewrite Hlinks. inversion E. reflexivity.
Defined.

(** C1 as stated fails: with one page, planning leaves two URLs to fetch,
    the first of which is the referer. *)
Lemma planning_one_page_two_links :
  exists fetcher,
    new Example.referer = inr fetcher
    /\ let links :=
         article_links
           (super (self_after
                     (@retrieve_links _ (@Europarl_Fetcher _ Example.api)
                                      (page_range 1) fetcher))) in
       List.length links <> 1
       /\ links = [ Example.referer;
                    url_prefix (lit "256864") ++ lit "1" ++ url_suffix ].
Proof.
  eexists. split; [reflexivity|]. split; [discriminate|reflexivity].
Qed.

(** ** The page number of a URL *)

Lemma int_of_digits_str_of_int (k : Z) :
  (0 <= k)%Z -> int_of_digits (str_of_int k) = Some k.
Proof.
  intros Hk. unfold int_of_digits, str_of_int.
  rewrite string_of_list_ascii_of_string.
  destruct k as [|p|p]; [reflexivity| |lia].
  cbn [Z.to_int NilEmpty.string_of_int]. rewrite NilEmpty.usu.
  cbn [option_map]. unfold Z.of_uint.
  now rewrite DecimalPos.Unsigned.of_to.
Qed.





(** A prefix none of whose positions starts a match can be skipped. *)
Lemma search_skip {A} (m : str -> option A) (a b : str) :
  (forall j, j < List.length a -> m (skipn j a ++ b) = None) ->
  search m (a ++ b) = search m b.
Proof.
  induction a as [|c a IH]; intros Hno; [reflexivity|].
  cbn [app search].
  pose proof (Hno 0 ltac:(cbn; lia)) as H0. cbn [skipn app] in H0.
  rewrite H0.
  apply IH. intros j Hj. apply (Hno (S j)). cbn; lia.
Qed.

Lemma match_page_digit_first (c : ascii) (t : str) :
  is_digit c = true -> match_page (c :: t) = None.
Proof.
  intros Hc. unfold match_page.
  change (lit "page=") with ("p"%char :: lit "age="). cbn [lit_prefix].
  destruct (Ascii.eqb "p" c) eqn:E; [|reflexivity].
  apply Ascii.eqb_eq in E. subst c. discriminate.
Qed.

Lemma match_page_in_digits (ds b : str) (j : nat) :
  forallb is_digit ds = true -> j < List.length ds ->
  match_page (skipn j ds ++ b) = None.
Proof.
  revert j; induction ds as [|c ds IH]; intros j Hd Hj; [cbn in Hj; lia|].
  cbn in Hd. apply andb_prop in Hd as [Hc Hd].
  destruct j as [|j]; cbn [skipn app].
  - now apply match_page_digit_first.
  - apply IH; [exact Hd|cbn in Hj; lia].
Qed.

(** The page number read back from a constructed URL is the page the URL
    was constructed for. *)
Lemma page_of_constructed (member_id : str) (k : Z) :
  forallb is_digit member_id = true -> (0 <= k)%Z ->
  page_of (url_prefix member_id ++ str_of_int k ++ url_suffix) = k.
Proof.
  intros Hid Hk. unfold page_of, url_prefix.
  rewrite (quote_plus_digits _ Hid).
  assert (Es : search match_page
                 ((loadmore_url ++ lit "?meetingType=PAST&memberId=" ++ member_id
                   ++ lit "&termId=10&page=") ++ str_of_int k ++ url_suffix)
               = Some (str_of_int k)).
  { change (lit "&termId=10&page=") with (lit "&termId=10&" ++ lit "page=").
    change (lit "?meetingType=PAST&memberId=" ++ ?x)
      with ((lit "?meetingType=PAST&memberId=") ++ x).
    rewrite <- !List.app_assoc.
    rewrite (List.app_assoc loadmore_url).
    rewrite search_skip.
    2:{ intros j Hj. cbn in Hj.
        repeat (destruct j as [|j]; [reflexivity|]). lia. }
    rewrite search_skip by (intros j Hj; now apply match_page_in_digits).
    rewrite search_skip.
    2:{ intros j Hj. cbn in Hj.
        repeat (destruct j as [|j]; [reflexivity|]). lia. }
    assert (Hm : match_page (lit "page=" ++ str_of_int k ++ url_suffix)
                 = Some (str_of_int k)).
    { unfold match_page. rewrite lit_prefix_app.
      rewrite span_digits_app;
        [|now apply str_of_int_digits|reflexivity].
      pose proof (str_of_int_nonempty k).
      now destruct (str_of_int k). }
    destruct (lit "page=" ++ str_of_int k ++ url_suffix) eqn:E;
      cbn [search]; now rewrite Hm. }
  rewrite Es. now rewrite int_of_digits_str_of_int.
Qed.

(** ** Retrying *)

Lemma retry_from_step {Self A} (further : nat) (wait_fixed : Z)
      (fn : nat -> M Self A) (attempt_number : nat) (self : Self) :
  retry_from further wait_fixed fn attempt_number self
  = let o := fn attempt_number self in
    match value o with
    | inr _ => o
    | inl e =>
        match further with
        | O => mkOutcome (events o) (self_after o) (inl (RetryError e))
        | S further' =>
            let o' := retry_from further' wait_fixed fn (S attempt_number)
                                 (self_after o) in
            mkOutcome (events o ++ Sleep wait_fixed :: events o')
                      (self_after o') (value o')
        end
    end.
Proof.
  destruct further as [|further']; cbn [retry_from]; run_monad;
    destruct (value (fn attempt_number self)); try reflexivity.
  now rewrite List.app_nil_r.
Qed.

Lemma fetch_article_once_outcome {Self} `{Fetcher Self}
      (reply : Reply) (article_url : str) (self : Self) :
  fetch_article_once reply article_url self
  = match checked reply with
    | inr body =>
        mkOutcome [HttpGet article_url (timeout (base self))] self (inr body)
    | inl e =>
        mkOutcome (HttpGet article_url (timeout (base self)) :: failure_log article_url e)
                  self (inl e)
    end.
Proof.
  unfold fetch_article_once, failure_log. run_monad.
  destruct (checked reply); reflexivity.
Qed.

(** C5.  When every attempt fails (the transport raises, or the status is
    outside 200..299), [fetch_article] issues exactly three GETs for the
    URL with a sleep of 2 between consecutive ones, and raises only after
    the third: the trace is GET, the two warnings, sleep, GET, warnings,
    sleep, GET, warnings, and the value is the [RetryError] around the
    third failure.  The attempt numbered [k] sees the reply [replies k]
    and nothing of the earlier attempts. *)
Theorem fetch_article_always_failing :
  forall (Self : Type) (F : Fetcher Self) (replies : nat -> Reply)
         (article_url : str) (self : Self),
    (forall e, checked (Failure e) = inl e)
    /\ (forall status_code text,
           ~ (200 <= status_code <= 299)%Z ->
           checked (Response status_code text) = inl (HTTPStatusError status_code))
    /\ ((forall k, 1 <= k <= 3 -> exists e, checked (replies k) = inl e) ->
        let o := fetch_article replies article_url self in
        let get := HttpGet article_url (timeout (base self)) in
        exists e1 e2 e3,
          checked (replies 1) = inl e1
          /\ checked (replies 2) = inl e2
          /\ checked (replies 3) = inl e3
          /\ events o
             = (get :: failure_log article_url e1) ++ [Sleep 2]
               ++ (get :: failure_log article_url e2) ++ [Sleep 2]
               ++ (get :: failure_log article_url e3)
          /\ filter (fun ev => is_HttpGet ev || is_Sleep ev) (events o)
             = [get; Sleep 2; get; Sleep 2; get]
          /\ value o = inl (RetryError e3)
          /\ self_after o = self).
Proof.
  intros Self F replies article_url self. split; [reflexivity|]. split.
  - intros status_code text Hs. unfold checked, is_success.
    destruct (200 <=? status_code)%Z eqn:E1;
      destruct (status_code <=? 299)%Z eqn:E2; try reflexivity.
    exfalso; apply Hs; lia.
  - intros Hfail o get.
    destruct (Hfail 1 ltac:(lia)) as [e1 H1].
    destruct (Hfail 2 ltac:(lia)) as [e2 H2].
    destruct (Hfail 3 ltac:(lia)) as [e3 H3].
    exists e1, e2, e3.
    assert (Ho : o = mkOutcome
                       ((get :: failure_log article_url e1) ++ [Sleep 2]
                        ++ (get :: failure_log article_url e2) ++ [Sleep 2]
                        ++ (get :: failure_log article_url e3))
                       self (inl (RetryError e3))).
    { subst o get. unfold fetch_article, retry. cbn [Nat.sub].
      rewrite retry_from_step, fetch_article_once_outcome, H1.
      cbn [value events self_after].
      rewrite retry_from_step, fetch_article_once_outcome, H2.
      cbn [value events self_after].
      rewrite retry_from_step, fetch_article_once_outcome, H3.
      cbn [value events self_after]. reflexivity. }
    rewrite Ho. cbn [events value self_after].
    repeat split; auto.
Qed.

Lemma fetch_article_always_failing_witness :
  value (@fetch_article _ (@Europarl_Fetcher _ Example.api)
                        Example.always_refused Example.referer
                        (mkEuroparlMeetingFetcher
                           (mkBaseFetcher None [] [] 10 (mkSemaphore 8))
                           Example.referer (lit "256864")))
  = inl (RetryError (TransportError (lit "connection refused"))).
Proof.
  destruct (fetch_article_always_failing
              _ (@Europarl_Fetcher _ Example.api)
              Example.always_refused Example.referer
              (mkEuroparlMeetingFetcher
                 (mkBaseFetcher None [] [] 10 (mkSemaphore 8))
                 Example.referer (lit "256864")))
    as (_ & _ & H).
  destruct H as (e1 & e2 & e3 & _ & _ & H3 & _ & _ & Hv & _).
  - intros k _. eexists. reflexivity.
  - rewrite Hv. inversion H3. reflexivity.
Defined.

(** ** Dispatching and collecting *)

Lemma fetch_article_outcome {Self} `{Fetcher Self}
      (replies : nat -> Reply) (article_url : str) (self : Self) :
  value (fetch_article replies article_url self) = fetched replies
  /\ self_after (fetch_article replies article_url self) = self.
Proof.
  unfold fetch_article, retry, fetched. cbn [Nat.sub].
  rewrite retry_from_step, fetch_article_once_outcome.
  destruct (checked (replies 1)); cbn [value events self_after]; [|auto].
  rewrite retry_from_step, fetch_article_once_outcome.
  destruct (checked (replies 2)); cbn [value events self_after]; [|auto].
  rewrite retry_from_step, fetch_article_once_outcome.
  destruct (checked (replies 3)); cbn [value events self_after]; auto.
Qed.

Lemma fetched_cases (replies : nat -> Reply) :
  (exists body, fetched replies = inr body)
  \/ (exists e, fetched replies = inl (RetryError e)
                /\ forall k, 1 <= k <= 3 -> exists e', checked (replies k) = inl e').
Proof.
  unfold fetched.
  destruct (checked (replies 1)) as [e1|b1] eqn:E1; [|left; eauto].
  destruct (checked (replies 2)) as [e2|b2] eqn:E2; [|left; eauto].
  destruct (checked (replies 3)) as [e3|b3] eqn:E3; [|left; eauto].
  right. exists e3. split; [reflexivity|].
  intros k Hk.
  assert (Hc : k = 1 \/ k = 2 \/ k = 3) by lia.
  destruct Hc as [ -> | [ -> | -> ] ]; eauto.
Qed.

Lemma fetched_exhausted (replies : nat -> Reply) :
  (forall k, 1 <= k <= 3 -> exists e, checked (replies k) = inl e) ->
  exists e, fetched replies = inl (RetryError e).
Proof.
  intros Hfail. unfold fetched.
  destruct (Hfail 1 ltac:(lia)) as [e1 H1].
  destruct (Hfail 2 ltac:(lia)) as [e2 H2].
  destruct (Hfail 3 ltac:(lia)) as [e3 H3].
  rewrite H1, H2, H3. eauto.
Qed.

Lemma nth_error_enumerate {A} (l : list A) (i : nat) :
  nth_error (enumerate l) i
  = match nth_error l i with Some x => Some (i, x) | None => None end.
Proof.
  unfold enumerate.
  assert (G : forall start,
             nth_error (combine (seq start (List.length l)) l) i
             = match nth_error l i with
               | Some x => Some (start + i, x)
               | None => None
               end).
  { revert i; induction l as [|x l IH]; intros i start.
    - now destruct i.
    - destruct i as [|i]; cbn; [now rewrite Nat.add_0_r|].
      rewrite IH. destruct (nth_error l i); [|reflexivity].
      do 2 f_equal. lia. }
  apply (G 0).
Qed.

Lemma nth_error_fetch_tasks {Self} `{Fetcher Self}
      (net : Network) (links : list str) (i : nat) :
  nth_error (fetch_tasks net links) i
  = match nth_error links i with
    | Some url => Some (fetch_article (net i) url)
    | None => None
    end.
Proof.
  unfold fetch_tasks. rewrite nth_error_map, nth_error_enumerate.
  now destruct (nth_error links i).
Qed.

(** Awaiting the tasks never changes [self]; the value is the first
    failure in completion order, or every result with its position. *)
Lemma await_as_completed_outcome {Self} `{Fetcher Self}
      (net : Network) (links : list str) (completion : list nat) (self : Self) :
  let o := await_as_completed (fetch_tasks net links) completion self in
  self_after o = self
  /\ ((exists bodies,
          value o = inr bodies
          /\ Forall2 (fun i r => fetched (net i) = inr (snd r) /\ fst r = i)
                     (filter (fun i => i <? List.length links) completion)
                     bodies)
      \/ (exists i e, In i completion /\ i < List.length links
                      /\ fetched (net i) = inl e /\ value o = inl e)).
Proof.
  cbv zeta.
  induction completion as [|i rest IH]; cbn [await_as_completed filter].
  - run_monad. split; [reflexivity|]. left. exists []. split; [reflexivity|constructor].
  - rewrite nth_error_fetch_tasks.
    destruct (nth_error links i) as [url|] eqn:El.
    + assert (Hi : i < List.length links)
        by (apply nth_error_Some; congruence).
      apply Nat.ltb_lt in Hi as Hi'. rewrite Hi'.
      destruct (fetch_article_outcome (net i) url self) as [Hv Hs].
      rewrite bind_eq, Hv, Hs.
      destruct (fetched (net i)) as [e|body] eqn:Ef.
      * cbn [self_after value]. split; [reflexivity|].
        right. exists i, e. cbn [In]. auto.
      * destruct IH as [IHs IHv].
        rewrite bind_eq. cbn [self_after value].
        destruct IHv as [(bodies & Hb & HF)|(j & e & Hin & Hj & Hf & He)].
        -- rewrite Hb, IHs. unfold ret. cbn [self_after value].
           split; [reflexivity|].
           left. exists ((i, body) :: bodies). split; [reflexivity|].
           constructor; [cbn; auto|exact HF].
        -- rewrite He. cbn [self_after value]. split; [exact IHs|].
           right. exists j, e. cbn [In]. auto.
    + assert (Hi : (i <? List.length links) = false).
      { apply Nat.ltb_ge. now apply nth_error_None. }
      rewrite Hi. destruct IH as [IHs IHv]. split; [exact IHs|].
      destruct IHv as [?|(j & e & Hin & Hj & Hf & He)]; [now left|].
      right. exists j, e. cbn [In]. auto.
Qed.

(** *** [sorted] puts the results back in the order of the positions *)

Section SortedByIndex.
Context {A : Type}.

Lemma insert_by_index_perm (x : nat * A) (l : list (nat * A)) :
  Permutation (insert_by_index x l) (x :: l).
Proof.
  induction l as [|y t IH]; cbn; [reflexivity|].
  destruct (fst x <=? fst y); [reflexivity|].
  rewrite IH. apply perm_swap.
Qed.

Lemma sorted_perm (l : list (nat * A)) : Permutation (sorted l) l.
Proof.
  induction l as [|x t IH]; cbn; [reflexivity|].
  rewrite insert_by_index_perm. now constructor.
Qed.

Lemma insert_by_index_sorted (x : nat * A) (l : list (nat * A)) :
  StronglySorted le_index l -> StronglySorted le_index (insert_by_index x l).
Proof.
  induction l as [|y t IH]; intros Hs; cbn.
  - repeat constructor.
  - inversion Hs as [|? ? Ht Hy]; subst.
    destruct (Nat.leb_spec (fst x) (fst y)) as [Hle|Hgt].
    + constructor; [exact Hs|].
      constructor; [exact Hle|].
      eapply Forall_impl; [|exact Hy].
      intros z Hz. unfold le_index in *. lia.
    + constructor; [now apply IH|].
      eapply Permutation_Forall; [symmetry; apply insert_by_index_perm|].
      constructor; [unfold le_index; lia|exact Hy].
Qed.

Lemma sorted_sorted (l : list (nat * A)) : StronglySorted le_index (sorted l).
Proof.
  induction l as [|x t IH]; cbn; [constructor|].
  now apply insert_by_index_sorted.
Qed.

(** Two sorted lists with the same elements are equal, when elements
    with the same position are equal. *)
Lemma sorted_unique (l1 l2 : list (nat * A)) :
  (forall x y, In x l1 -> In y l1 -> fst x = fst y -> x = y) ->
  StronglySorted le_index l1 -> StronglySorted le_index l2 ->
  Permutation l1 l2 -> l1 = l2.
Proof.
  revert l2; induction l1 as [|a t1 IH]; intros l2 Hinj H1 H2 Hp.
  - apply Permutation_nil in Hp. now subst.
  - destruct l2 as [|b t2].
    { apply Permutation_sym, Permutation_nil in Hp. discriminate. }
    inversion H1 as [|? ? Ht1 Ha]; subst.
    inversion H2 as [|? ? Ht2 Hb]; subst.
    assert (Hab : a = b).
    { assert (Ia : In a (b :: t2))
        by (eapply Permutation_in; [exact Hp|now left]).
      assert (Ib : In b (a :: t1))
        by (eapply Permutation_in; [symmetry; exact Hp|now left]).
      destruct Ia as [->|Ia]; [reflexivity|].
      destruct Ib as [->|Ib]; [reflexivity|].
      rewrite Forall_forall in Ha, Hb.
      specialize (Ha _ Ib). specialize (Hb _ Ia).
      apply Hinj; [now left|now right|unfold le_index in *; lia]. }
    subst b. f_equal. apply IH; auto.
    + intros x y Hx Hy. apply Hinj; now right.
    + eapply Permutation_cons_inv; exact Hp.
Qed.

Lemma indexed_seq_sorted (g : nat -> A) (start len : nat) :
  StronglySorted le_index (map (fun i => (i, g i)) (seq start len)).
Proof.
  revert start; induction len as [|len IH]; intros start; cbn.
  - constructor.
  - constructor; [apply IH|].
    apply Forall_forall. intros x Hx.
    apply in_map_iff in Hx as (i & <- & Hi). apply in_seq in Hi.
    unfold le_index; cbn; lia.
Qed.

Lemma sorted_indexed_permutation (g : nat -> A) (l : list nat) (n : nat) :
  Permutation l (seq 0 n) ->
  sorted (map (fun i => (i, g i)) l) = map (fun i => (i, g i)) (seq 0 n).
Proof.
  intros Hp. apply sorted_unique.
  - intros x y Hx Hy Hxy.
    apply (Permutation_in _ (sorted_perm _)) in Hx, Hy.
    apply in_map_iff in Hx as (i & <- & _).
    apply in_map_iff in Hy as (j & <- & _).
    cbn in Hxy. now subst.
  - apply sorted_sorted.
  - apply indexed_seq_sorted.
  - rewrite sorted_perm. now apply Permutation_map.
Qed.
End SortedByIndex.

Lemma map_nth_seq {A} (l : list A) (d : A) :
  map (fun i => nth i l d) (seq 0 (List.length l)) = l.
Proof.
  induction l as [|x l IH]; cbn; [reflexivity|].
  f_equal. rewrite <- seq_shift, map_map. exact IH.
Qed.

Lemma Forall2_indexed {A} (P : nat -> A -> Prop) (g : nat -> A)
      (l : list nat) (rs : list (nat * A)) :
  (forall i a, In i l -> P i a -> a = g i) ->
  Forall2 (fun i r => P i (snd r) /\ fst r = i) l rs ->
  rs = map (fun i => (i, g i)) l.
Proof.
  intros Hg HF. induction HF as [|i r l rs [HP Hi] HF IH]; cbn; [reflexivity|].
  rewrite IH by (intros; apply Hg; [now right|assumption]).
  f_equal. destruct r as [j a]; cbn in *. subst j.
  now rewrite (Hg i a (or_introl eq_refl) HP).
Qed.

Lemma filter_in_range (l : list nat) (n : nat) :
  Permutation l (seq 0 n) -> filter (fun i => i <? n) l = l.
Proof.
  intros Hp. apply forallb_filter_id. apply forallb_forall.
  intros i Hi. apply (Permutation_in _ Hp), in_seq in Hi.
  apply Nat.ltb_lt. lia.
Qed.

(** Whatever the order of completion, [gather] returns the results in
    the order of the links, provided every task returns. *)
Lemma gather_in_link_order {Self} `{Fetcher Self}
      (net : Network) (links : list str) (completion : list nat)
      (responses : list (option str)) (self : Self) :
  Permutation completion (seq 0 (List.length links)) ->
  List.length responses = List.length links ->
  (forall i body, nth_error responses i = Some body ->
                  fetched (net i) = inr body) ->
  value (gather (fetch_tasks net links) completion self) = inr responses
  /\ self_after (gather (fetch_tasks net links) completion self) = self.
Proof.
  intros Hp Hlen Hok. unfold gather. rewrite bind_eq.
  destruct (await_as_completed_outcome net links completion self)
    as [Hs [(bodies & Hb & HF)|(i & e & _ & Hi & Hf & _)]].
  - rewrite Hb, Hs. unfold ret. cbn [value self_after]. split; [|reflexivity].
    rewrite (filter_in_range _ _ Hp) in HF.
    apply (Forall2_indexed (fun i a => fetched (net i) = inr a)
                           (fun i => nth i responses None)) in HF.
    + rewrite HF, (sorted_indexed_permutation _ _ _ Hp), map_map. cbn [snd].
      rewrite <- Hlen. now rewrite map_nth_seq.
    + intros i a Hi Ha.
      apply (Permutation_in _ Hp), in_seq in Hi.
      destruct (nth_error responses i) as [body|] eqn:En.
      * rewrite (nth_error_nth _ _ _ En).
        specialize (Hok _ _ En). congruence.
      * apply nth_error_None in En. lia.
  - exfalso. destruct (nth_error responses i) as [body|] eqn:En.
    + specialize (Hok _ _ En). congruence.
    + apply nth_error_None in En. lia.
Qed.

(** A task whose attempts are exhausted makes [gather] raise. *)
Lemma gather_raises {Self} `{Fetcher Self}
      (net : Network) (links : list str) (completion : list nat)
      (i : nat) (self : Self) :
  In i completion -> i < List.length links ->
  (forall k, 1 <= k <= 3 -> exists e, checked (net i k) = inl e) ->
  exists e,
    value (gather (fetch_tasks net links) completion self) = inl (RetryError e)
    /\ self_after (gather (fetch_tasks net links) completion self) = self.
Proof.
  intros Hin Hi Hfail. unfold gather. rewrite bind_eq.
  destruct (await_as_completed_outcome net links completion self)
    as [Hs [(bodies & Hb & HF)|(j & e & _ & Hj & Hf & Hv)]].
  - exfalso.
    assert (Hin' : In i (filter (fun i => i <? List.length links) completion)).
    { apply filter_In. split; [exact Hin|now apply Nat.ltb_lt]. }
    clear Hb. induction HF as [|j r l rs [Hr _] HF IH]; [contradiction|].
    destruct Hin' as [->|Hin']; [|now apply IH].
    destruct (fetched_exhausted _ Hfail) as [e He]. congruence.
  - rewrite Hv, Hs. cbn [value self_after].
    destruct (fetched_cases (net j)) as [[body Hb]|(e' & He' & _)];
      [congruence|].
    exists e'. split; [congruence|reflexivity].
Qed.

Lemma gather_self {Self} `{Fetcher Self}
      (net : Network) (links : list str) (completion : list nat) (self : Self) :
  self_after (gather (fetch_tasks net links) completion self) = self.
Proof.
  unfold gather. rewrite bind_eq.
  destruct (await_as_completed_outcome net links completion self) as [Hs _].
  destruct (value _); cbn [self_after]; [exact Hs|].
  unfold ret. cbn [self_after]. exact Hs.
Qed.

(** ** The run *)

Section Run.
Context {Node : Type} {api : API Node}.

Lemma parse_article_outcome (article_html article_url : str)
    (self : EuroparlMeetingFetcher) :
parse_article article_html article_url self
= mkOutcome (fst (parse article_html article_url)) self
            (inr (snd (parse article_html article_url))).
Proof.
unfold parse_article. now destruct (parse article_html article_url).
Qed.

Lemma parse_all_outcome (pairs : list (option str * str))
    (self : EuroparlMeetingFetcher) :
parse_all pairs self
= mkOutcome (fst (parse_pages pairs)) self (inr (snd (parse_pages pairs))).
Proof.
induction pairs as [|[[article_html|] article_url] rest IH];
  cbn [parse_all parse_pages].
- reflexivity.
- rewrite bind_eq.
  cbn [Base.parse_article Europarl_Fetcher]. rewrite parse_article_outcome.
  destruct (parse article_html article_url) as [log1 parsed].
  cbn [value events self_after fst snd].
  rewrite bind_eq, IH. cbn [value events self_after].
  destruct (parse_pages rest) as [log2 others]. unfold ret.
  cbn [fst snd events self_after value]. now rewrite List.app_nil_r.
- exact IH.
Qed.

Lemma run_async_outcome (net : Network) (completion : list nat) (pages : Z)
    (self : EuroparlMeetingFetcher) :
run_async net completion pages self
= let p := planned self (page_range pages) in
  let links := article_links (super p) in
  let g := gather (fetch_tasks net links) completion p in
  match value g with
  | inl e => mkOutcome (events g) p (inl e)
  | inr responses =>
      let parsed := parse_pages (combine responses links) in
      mkOutcome (events g ++ fst parsed)
                (with_super (set_articles (flatten (snd parsed)) (super p)) p)
                (inr tt)
  end.
Proof.
cbv zeta. unfold run_async, fetch_all_articles.
rewrite bind_eq.
rewrite (bind_eq (retrieve_links (page_range pages))).
rewrite retrieve_links_outcome. cbn [value events self_after app].
rewrite (bind_eq get_self). unfold get_self. cbn beta.
cbn [value events self_after app Base.base Europarl_Fetcher].
fold (fetch_tasks net (article_links (super (planned self (page_range pages))))).
set (p := planned self (page_range pages)).
pose proof (gather_self net (article_links (super p)) completion p) as Hs.
destruct (value (gather (fetch_tasks net (article_links (super p))) completion p))
  as [e|responses] eqn:Ev.
- now rewrite Hs.
- rewrite Hs. rewrite bind_eq. cbn [value events self_after app].
  rewrite bind_eq, parse_all_outcome.
  cbn [value events self_after app]. rewrite bind_eq.
  unfold put_self.
  cbn [value events self_after app Base.base Base.with_base Europarl_Fetcher].
  now rewrite !List.app_nil_r.
Qed.

Lemma flatten_parse_pages (bodies : list str) (links : list str) :
flatten (snd (parse_pages (combine (map Some bodies) links)))
= flat_map (fun '(article_html, article_url) =>
              page_records article_html article_url)
           (combine bodies links).
Proof.
revert links; induction bodies as [|b bodies IH]; intros [|u links];
  cbn [map combine parse_pages flat_map]; try reflexivity.
unfold page_records at 1.
destruct (parse b u) as [log1 parsed].
specialize (IH links).
destruct (parse_pages (combine (map Some bodies) links)) as [log2 others].
cbn [snd] in *. unfold flatten in *. cbn [flat_map]. now rewrite IH.
Qed.
End Run.

Lemma records_of_map {Node : Type} {api : API Node}
      (page : Z) (headers : list Node) :
  snd (records_of page headers)
  = map (fun header => snd (record_of page header)) headers.
Proof.
  induction headers as [|h hs IH]; cbn [records_of map]; [reflexivity|].
  destruct (record_of page h) as [log1 record].
  destruct (records_of page hs) as [log2 meetings].
  cbn [snd] in *. now rewrite IH.
Qed.

Lemma planned_links {Node : Type} {api : API Node}
      (self : EuroparlMeetingFetcher) (pages : Z) :
  article_links (super (self_after (retrieve_links (page_range pages) self)))
  = article_links (super self)
    ++ map (constructed_url (base_url (super self)) (member_id self))
           (page_range pages).
Proof. now rewrite retrieve_links_outcome. Qed.

(** ** A fetch that exhausts its attempts *)

(** C3, at the code.  When the three attempts of one link all fail, the
    [RetryError] of [fetch_article] propagates through [gather] and
    [run_async]: the run raises, and [self.articles] is left as it was.
    The bodies of the other links are not parsed. *)
Theorem run_async_raises_on_exhausted_fetch :
  forall (Node : Type) (api : API Node) (net : Network)
         (completion : list nat) (pages : Z)
         (fetcher : EuroparlMeetingFetcher) (i : nat),
    let links :=
      article_links
        (super (self_after (retrieve_links (page_range pages) fetcher))) in
    Permutation completion (seq 0 (List.length links)) ->
    i < List.length links ->
    (forall k, 1 <= k <= 3 -> exists e, checked (net i k) = inl e) ->
    let o := run_async net completion pages fetcher in
    (exists e, value o = inl (RetryError e))
    /\ articles (super (self_after o)) = articles (super fetcher).
Proof.
  intros Node api net completion pages fetcher i links Hp Hi Hfail o.
  subst links o. rewrite retrieve_links_outcome in *. cbn [self_after] in *.
  set (p := planned fetcher (page_range pages)) in *.
  rewrite run_async_outcome. cbv zeta. fold p.
  destruct (gather_raises net (article_links (super p)) completion i p)
    as (e & Hv & _); [|exact Hi|exact Hfail|].
  - apply (Permutation_in _ (Permutation_sym Hp)), in_seq. lia.
  - rewrite Hv. cbn [value self_after]. split; [now exists e|].
    subst p. now destruct fetcher as [[] ? ?].
Qed.

Lemma run_async_raises_on_exhausted_fetch_witness :
  let o := @run_async _ (@Europarl_Fetcher _ Example.api)
                      Example.net_page2_down [0; 1; 2] 2 Example.fetcher in
  (exists e, value o = inl (RetryError e))
  /\ articles (super (self_after o)) = [].
Proof.
  apply (run_async_raises_on_exhausted_fetch
           _ Example.api Example.net_page2_down [0; 1; 2] 2 Example.fetcher 2).
  - apply Permutation_refl.
  - vm_compute. lia.
  - intros k _. eexists. reflexivity.
Defined.

(** ** The link list across runs *)

(** C9, as the code has it.  [article_links] is an attribute of the
    fetcher: a run appends the URLs of its pages to the links the object
    already holds and nothing resets the list, whether the run returns or
    raises.  A second run on the same object therefore dispatches over the
    links of the first run followed by its own. *)
Theorem article_links_accumulate :
  forall (Node : Type) (api : API Node)
         (net1 net2 : Network) (completion1 completion2 : list nat)
         (pages1 pages2 : Z) (fetcher : EuroparlMeetingFetcher),
    let url := constructed_url (base_url (super fetcher)) (member_id fetcher) in
    let o1 := run_async net1 completion1 pages1 fetcher in
    let o2 := run_async net2 completion2 pages2 (self_after o1) in
    article_links (super (self_after o1))
    = article_links (super fetcher) ++ map url (page_range pages1)
    /\ article_links (super (self_after o2))
       = article_links (super fetcher) ++ map url (page_range pages1)
         ++ map url (page_range pages2)
    /\ article_links
         (super (self_after (retrieve_links (page_range pages2) (self_after o1))))
       = article_links (super (self_after o2)).
Proof.
  intros Node api net1 net2 completion1 completion2 pages1 pages2 fetcher
         url o1 o2.
  assert (Hrun : forall net completion pages self,
             let o := run_async net completion pages self in
             article_links (super (self_after o))
             = article_links (super self)
               ++ map (constructed_url (base_url (super self)) (member_id self))
                      (page_range pages)
             /\ base_url (super (self_after o)) = base_url (super self)
             /\ member_id (self_after o) = member_id self).
  { intros net completion pages self. cbv zeta.
    rewrite run_async_outcome. cbv zeta.
    destruct (value (gather _ _ _)); destruct self as [[] ? ?]; cbn; auto. }
  destruct (Hrun net1 completion1 pages1 fetcher) as (H1 & Hb & Hm).
  destruct (Hrun net2 completion2 pages2 (self_after o1)) as (H2 & _ & _).
  fold o1 in H1, Hb, Hm. fold o2 in H2.
  rewrite Hb, Hm, H1 in H2. fold url in H1, H2.
  repeat split.
  - exact H1.
  - rewrite H2. now rewrite <- List.app_assoc.
  - rewrite planned_links, H2, Hb, Hm, H1. reflexivity.
Qed.

(** C9 as stated fails: after a run over one page, a second run over one
    page on the same fetcher plans three links and issues three GETs, the
    first two for the links of the first run. *)
Lemma second_run_refetches_first_run_links :
  let run := @run_async _ (@Europarl_Fetcher _ Example.api)
                        Example.net_ok in
  let page1 := url_prefix (lit "256864") ++ lit "1" ++ url_suffix in
  let o1 := run [0; 1] 1%Z Example.fetcher in
  let o2 := run [0; 1; 2] 1%Z (self_after o1) in
  value o1 = inr tt
  /\ article_links (super (self_after o1)) = [Example.referer; page1]
  /\ article_links (super (self_after o2)) = [Example.referer; page1; page1]
  /\ article_links (super (self_after o2))
     <> article_links (super (self_after o1))
  /\ filter is_HttpGet (events o2)
     = [HttpGet Example.referer 10; HttpGet page1 10; HttpGet page1 10].
Proof.
  cbv zeta. repeat split; try (vm_compute; reflexivity).
  vm_compute. discriminate.
Qed.

(** ** Parsing a page *)

Section Parsing.
Context {Node : Type} {api : API Node}.

Lemma snd_try_field (record : list Event * dict) (key : str)
    (extracted : Exception + PyVal) (message : str) :
snd (try_field record key extracted message)
= dict_set (snd record) key (or_None extracted).
Proof. now destruct extracted. Qed.

Lemma record_of_fields (page : Z) (header : Node) :
snd (record_of page header) = record_fields page header.
Proof.
unfold record_of. cbn [snd]. rewrite !snd_try_field. reflexivity.
Qed.




Lemma parse_not_blank (article_html article_url : str) :
strip article_html <> [] ->
parse article_html article_url
= match headers_of article_html with
  | inr headers =>
      (fst (records_of (page_of article_url) headers),
       Some (map (record_fields (page_of article_url)) headers))
  | inl e => (parse_failure_log article_url e, None)
  end.
Proof.
intros Hs. unfold parse.
destruct (strip article_html) as [|c t]; [contradiction|].
cbn [List.length Nat.eqb].
destruct (headers_of article_html) as [e|headers]; [reflexivity|].
rewrite <- (map_ext _ _ (record_of_fields (page_of article_url))).
rewrite <- records_of_map.
now destruct (records_of (page_of article_url) headers).
Qed.

Lemma call_None {A} (method : str) (f : Node -> Exception + A) :
exists e, call (inr None) method f = inl e.
Proof. eexists. reflexivity. Qed.

Lemma Date_missing (header : Node) :
select_one header (lit "time") = inr None -> or_None (Date header) = PyNone.
Proof. intros Hs. unfold Date. now rewrite Hs. Qed.



End Parsing.

(** C6.  On a page whose headers are selected, [parse_article] emits one
    record per header, in order, and the value of each of the six fields
    is what its own [try] block extracts, or [None] when that block
    raises: a field that raises changes neither the other fields nor the
    emission of the record.  In particular a single header without a
    [time] element, whose other five extractions succeed, yields one
    record with [Date] set to [None] and the other fields filled. *)
Theorem parse_extracts_fields_independently :
  forall (Node : Type) (api : API Node) (article_html article_url : str)
         (headers : list Node),
    strip article_html <> [] ->
    headers_of article_html = inr headers ->
    snd (parse article_html article_url)
    = Some (map (fun header => snd (record_of (page_of article_url) header))
                headers)
    /\ (forall page header,
           snd (record_of page header) = record_fields page header)
    /\ (forall header title place capacity code meeting,
           headers = [header] ->
           select_one header (lit "time") = inr None ->
           Title header = inr (PyString title) ->
           Place header = inr (PyString place) ->
           Capacity header = inr (PyString capacity) ->
           Code header = inr (PyString code) ->
           Meeting_with header = inr (PyString meeting) ->
           snd (parse article_html article_url)
           = Some [[ (lit "Title", PyString title);
                     (lit "Date", PyNone);
                     (lit "Place", PyString place);
                     (lit "Capacity", PyString capacity);
                     (key_Code, PyString code);
                     (lit "Meeting with", PyString meeting);
                     (lit "page_number", PyInt (page_of article_url)) ]]).
Proof.
  intros Node api article_html article_url headers Hne Hh.
  rewrite (parse_not_blank _ _ Hne), Hh. cbn [snd].
  split; [|split].
  - f_equal. apply map_ext. intros h. now rewrite record_of_fields.
  - intros page header. apply record_of_fields.
  - intros header title place capacity code meeting -> Htime Ht Hp Hc Hk Hm.
    cbn [map]. unfold record_fields.
    now rewrite Ht, Hp, Hc, Hk, Hm, (Date_missing _ Htime).
Qed.

Lemma parse_extracts_fields_independently_witness :
  snd (@parse _ Example.api (lit "<one meeting, no date>") Example.referer)
  = Some [[ (lit "Title", PyString (lit "C"));
            (lit "Date", PyNone);
            (lit "Place", PyString (lit "Brussels"));
            (lit "Capacity", PyString (lit "Member"));
            (key_Code, PyString (lit "ENVI"));
            (lit "Meeting with", PyString (lit "ACME"));
            (lit "page_number", PyInt 0) ]].
Proof.
  destruct (parse_extracts_fields_independently
              _ Example.api (lit "<one meeting, no date>") Example.referer
              [Example.meeting_without_date "C"]) as (_ & _ & H).
  - discriminate.
  - reflexivity.
  - apply (H (Example.meeting_without_date "C")); reflexivity.
Defined.



(** ** The order of the records *)










Lemma new_example_fetcher : new Example.referer = inr Example.fetcher.
Proof. reflexivity. Qed.


(** ** The shape of a record *)



(** ** The tasks on the event loop *)

Import EventLoop.

Lemma update_app {A} (done rest : list A) (x y : A) :
  update (done ++ x :: rest) (List.length done) y = done ++ y :: rest.
Proof. induction done as [|d done IH]; cbn; [reflexivity|now rewrite IH]. Qed.

Lemma nth_error_middle {A} (done rest : list A) (x : A) :
  nth_error (done ++ x :: rest) (List.length done) = Some x.
Proof. induction done as [|d done IH]; cbn; [reflexivity|exact IH]. Qed.

Lemma exec_starts (net : Network) (s : Semaphore) (todo : list str)
      (done : list Task) :
  exec net (mkLoop (done ++ map (fun _ => Created) todo) s)
       (map Start (seq (List.length done) (List.length todo)))
  = Some (mkLoop (done ++ map (fun _ => AwaitingGet 1) todo) s).
Proof.
  revert done; induction todo as [|u todo IH]; intros done; [reflexivity|].
  cbn [List.length seq map exec step tasks sem].
  rewrite nth_error_middle, update_app.
  specialize (IH (done ++ [AwaitingGet 1])).
  rewrite <- !List.app_assoc, length_app, Nat.add_1_r in IH. exact IH.
Qed.

(** No step touches the semaphore. *)
Lemma exec_sem (net : Network) (schedule : list Action) (l l' : Loop) :
  exec net l schedule = Some l' -> sem l' = sem l.
Proof.
  revert l; induction schedule as [|a rest IH]; intros l; cbn [exec].
  - intros E; now inversion E.
  - destruct (step net l a) as [l1|] eqn:Es; [|discriminate].
    intros E. rewrite (IH _ E).
    destruct a as [i|i|i]; cbn [step] in Es;
      destruct (nth_error (tasks l) i) as [[| | |]|]; inversion Es; reflexivity.
Qed.

(** Once [gather] has scheduled the tasks, every link has a GET in
    flight, whatever the semaphore was created with. *)
Lemma start_all_in_flight (net : Network) (b : BaseFetcher) :
  exists l,
    exec net (spawn b) (start_all (spawn b)) = Some l
    /\ in_flight l = List.length (article_links b)
    /\ sem l = semaphore b.
Proof.
  exists (mkLoop (map (fun _ => AwaitingGet 1) (article_links b)) (semaphore b)).
  unfold start_all, spawn. cbn [tasks]. rewrite length_map.
  split; [apply (exec_starts net (semaphore b) (article_links b) [])|].
  split; [|reflexivity].
  unfold in_flight. cbn [tasks].
  induction (article_links b) as [|u links IH]; cbn; [reflexivity|now rewrite IH].
Qed.

(** C2, at the code.  [BaseFetcher] defaults to 3 connections and
    [EuroparlMeetingFetcher] to 8, and the constructor stores a semaphore
    with that many permits; [fetch_article] never acquires it.  For the
    fetcher of the docstring and a run over 8 pages, 9 links are planned
    and, once [gather] has scheduled the tasks, 9 GETs are in flight while
    the semaphore still holds its 8 permits. *)
Theorem nine_gets_in_flight_with_eight_permits :
  Base.default_max_connections = 3%Z
  /\ Europarl.default_max_connections = 8%Z
  /\ new Example.referer = inr Example.fetcher
  /\ permits (semaphore (super Example.fetcher)) = 8%Z
  /\ let b := super (self_after
                       (@retrieve_links _ (@Europarl_Fetcher _ Example.api)
                                        (page_range 8) Example.fetcher)) in
     exists l,
       exec Example.net_ok (spawn b) (start_all (spawn b)) = Some l
       /\ in_flight l = 9
       /\ permits (sem l) = 8%Z
       /\ (Z.of_nat (in_flight l) > permits (sem l))%Z.
Proof.
  repeat (split; [reflexivity|]).
  cbv zeta.
  destruct (start_all_in_flight
              Example.net_ok
              (super (self_after
                        (@retrieve_links _ (@Europarl_Fetcher _ Example.api)
                                         (page_range 8) Example.fetcher))))
    as (l & He & Hn & Hs).
  exists l. split; [exact He|].
  assert (Hn' : in_flight l = 9) by (rewrite Hn; reflexivity).
  assert (Hs' : permits (sem l) = 8%Z) by (rewrite Hs; reflexivity).
  repeat split; [exact Hn'|exact Hs'|]. rewrite Hn', Hs'. reflexivity.
Qed.

Lemma nth_error_update {A} (l : list A) (i j : nat) (x y : A) :
  nth_error (update l i x) j = Some y ->
  (i = j /\ y = x) \/ (i <> j /\ nth_error l j = Some y).
Proof.
  revert i j; induction l as [|a l IH]; intros i j; cbn.
  - destruct i, j; discriminate.
  - destruct i as [|i], j as [|j]; cbn.
    + intros E; inversion E; auto.
    + intros E; right; auto.
    + intros E; right; auto.
    + intros E. destruct (IH _ _ E) as [[-> ->]|[Hne E']]; [left|right]; auto.
Qed.

Lemma fetched_after_failures (replies : nat -> Reply) (k : nat) :
  1 <= k <= 3 ->
  (forall j, 1 <= j < k -> exists e, checked (replies j) = inl e) ->
  match checked (replies k) with
  | inr body => fetched replies = inr body
  | inl e => k = 3 -> fetched replies = inl (RetryError e)
  end.
Proof.
  intros Hk Hfail. unfold fetched.
  assert (Hc : k = 1 \/ k = 2 \/ k = 3) by lia.
  destruct Hc as [ -> | [ -> | -> ] ].
  - destruct (checked (replies 1)); [intros; discriminate|reflexivity].
  - destruct (Hfail 1 ltac:(lia)) as [e1 H1]. rewrite H1.
    destruct (checked (replies 2)); [intros; discriminate|reflexivity].
  - destruct (Hfail 1 ltac:(lia)) as [e1 H1]. rewrite H1.
    destruct (Hfail 2 ltac:(lia)) as [e2 H2]. rewrite H2.
    destruct (checked (replies 3)); reflexivity.
Qed.

Lemma step_consistent (net : Network) (a : Action) (l l' : Loop) :
  (forall i t, nth_error (tasks l) i = Some t -> consistent net i t) ->
  step net l a = Some l' ->
  forall i t, nth_error (tasks l') i = Some t -> consistent net i t.
Proof.
  intros Hall Hstep i t Ht.
  destruct a as [n|n|n]; cbn [step] in Hstep;
    destruct (nth_error (tasks l) n) as [[|k|k|r]|] eqn:En;
    inversion Hstep; subst; clear Hstep; cbn [tasks] in Ht;
    apply nth_error_update in Ht as [[<- ->]|[_ Ht]];
    try (now apply Hall).
  - cbn. split; [lia|]. intros j Hj; lia.
  - destruct (Hall _ _ En) as [Hk Hfail].
    pose proof (fetched_after_failures (net n) k Hk Hfail) as Hf.
    destruct (checked (net n k)) as [e|body] eqn:Ec.
    + assert (Hc : k = 1 \/ k = 2 \/ k = 3) by lia.
      destruct Hc as [ -> | [ -> | -> ] ]; cbn.
      * split; [lia|]. intros j Hj. assert (j = 1) as -> by lia. eauto.
      * split; [lia|]. intros j Hj.
        destruct (Nat.eq_dec j 2) as [Hj2|Hne];
          [subst j; eauto|apply Hfail; lia].
      * symmetry. now apply Hf.
    + cbn. now symmetry.
  - destruct (Hall _ _ En) as [Hk Hfail]. cbn. split; [lia|].
    intros j Hj. apply Hfail. lia.
Qed.

(** Whatever the schedule, a task that is done holds what [fetched]
    computes from the replies to its attempts: the result of a task does
    not depend on the interleaving. *)
Lemma exec_done_fetched (net : Network) (b : BaseFetcher)
      (schedule : list Action) (l : Loop) (i : nat)
      (result : Exception + option str) :
  exec net (spawn b) schedule = Some l ->
  nth_error (tasks l) i = Some (Done result) ->
  result = fetched (net i).
Proof.
  intros He Hi.
  assert (Hall : forall l0,
             (forall i t, nth_error (tasks l0) i = Some t -> consistent net i t) ->
             exec net l0 schedule = Some l ->
             forall i t, nth_error (tasks l) i = Some t -> consistent net i t).
  { clear He Hi. induction schedule as [|a rest IH]; intros l0 H0 He; cbn in He.
    - now inversion He; subst.
    - destruct (step net l0 a) as [l1|] eqn:Es; [|discriminate].
      apply (IH l1); [|exact He]. eapply step_consistent; eauto. }
  refine (Hall (spawn b) _ He i (Done result) Hi).
  intros j t Hj. unfold spawn in Hj. cbn [tasks] in Hj.
  rewrite nth_error_map in Hj.
  destruct (nth_error (article_links b) j); inversion Hj. exact I.
Qed.

(* ===================================================================== *)
(** * Further properties *)
(* ===================================================================== *)

(** ** One fetch *)

(** [fetch_article], reply by reply. *)
Lemma fetch_article_unfold {Self} `{Fetcher Self}
      (replies : nat -> Reply) (article_url : str) (self : Self) :
  fetch_article replies article_url self
  = let get := HttpGet article_url (timeout (base self)) in
    match checked (replies 1) with
    | inr body => mkOutcome [get] self (inr body)
    | inl e1 =>
        match checked (replies 2) with
        | inr body =>
            mkOutcome ((get :: failure_log article_url e1) ++ [Sleep 2; get])
                      self (inr body)
        | inl e2 =>
            match checked (replies 3) with
            | inr body =>
                mkOutcome ((get :: failure_log article_url e1) ++ [Sleep 2]
                           ++ (get :: failure_log article_url e2)
                           ++ [Sleep 2; get])
                          self (inr body)
            | inl e3 =>
                mkOutcome ((get :: failure_log article_url e1) ++ [Sleep 2]
                           ++ (get :: failure_log article_url e2) ++ [Sleep 2]
                           ++ (get :: failure_log article_url e3))
                          self (inl (RetryError e3))
            end
        end
    end.
Proof.
  cbv zeta. unfold fetch_article, retry. cbn [Nat.sub].
  rewrite retry_from_step, fetch_article_once_outcome.
  destruct (checked (replies 1)) as [e1|b1]; cbn [value events self_after];
    [|reflexivity].
  rewrite retry_from_step, fetch_article_once_outcome.
  destruct (checked (replies 2)) as [e2|b2]; cbn [value events self_after];
    [|reflexivity].
  rewrite retry_from_step, fetch_article_once_outcome.
  destruct (checked (replies 3)) as [e3|b3]; cbn [value events self_after];
    reflexivity.
Qed.

Lemma checked_body (reply : Reply) (body : option str) :
  checked reply = inr body -> exists text, body = Some text.
Proof.
  unfold checked. destruct reply as [status_code text|e]; [|discriminate].
  destruct (is_success status_code); [|discriminate].
  intros E; inversion E; eauto.
Qed.

(** X1.  A fetch whose first successful attempt is attempt [k] (of at
    most three) returns the body of that attempt after exactly [k] GETs
    and [k - 1] sleeps, and the replies to later attempts do not matter:
    a transient failure is absorbed and nothing is fetched again after a
    success. *)
Theorem fetch_article_first_success :
  forall (Self : Type) (F : Fetcher Self) (replies : nat -> Reply)
         (article_url : str) (self : Self) (k : nat) (body : option str),
    1 <= k <= 3 ->
    (forall j, 1 <= j < k -> exists e, checked (replies j) = inl e) ->
    checked (replies k) = inr body ->
    let o := fetch_article replies article_url self in
    value o = inr body
    /\ (exists text, body = Some text)
    /\ count_gets (events o) = k
    /\ count_sleeps (events o) = k - 1
    /\ self_after o = self
    /\ forall replies' : nat -> Reply,
        (forall j, 1 <= j <= k -> replies' j = replies j) ->
        fetch_article replies' article_url self = o.
Proof.
  intros Self F replies article_url self k body Hk Hfail Hok o.
  assert (Hc : k = 1 \/ k = 2 \/ k = 3) by lia.
  split; [|split; [exact (checked_body _ _ Hok)|]].
  - subst o. rewrite fetch_article_unfold. cbv zeta.
    destruct Hc as [ -> | [ -> | -> ] ].
    + now rewrite Hok.
    + destruct (Hfail 1 ltac:(lia)) as [e1 H1]. now rewrite H1, Hok.
    + destruct (Hfail 1 ltac:(lia)) as [e1 H1].
      destruct (Hfail 2 ltac:(lia)) as [e2 H2]. now rewrite H1, H2, Hok.
  - assert (Hind : forall replies' : nat -> Reply,
               (forall j, 1 <= j <= k -> replies' j = replies j) ->
               fetch_article replies' article_url self = o).
    { intros replies' Heq. subst o. rewrite !fetch_article_unfold. cbv zeta.
      destruct Hc as [ -> | [ -> | -> ] ].
      - rewrite (Heq 1) by lia. now rewrite Hok.
      - rewrite (Heq 1), (Heq 2) by lia.
        destruct (Hfail 1 ltac:(lia)) as [e1 H1]. now rewrite H1, Hok.
      - rewrite (Heq 1), (Heq 2), (Heq 3) by lia.
        destruct (Hfail 1 ltac:(lia)) as [e1 H1].
        destruct (Hfail 2 ltac:(lia)) as [e2 H2]. now rewrite H1, H2, Hok. }
    subst o. rewrite fetch_article_unfold. cbv zeta.
    rewrite fetch_article_unfold in Hind. cbv zeta in Hind.
    destruct Hc as [ -> | [ -> | -> ] ].
    + rewrite Hok in *. repeat split; try reflexivity. exact Hind.
    + destruct (Hfail 1 ltac:(lia)) as [e1 H1]. rewrite H1, Hok in *.
      repeat split; try reflexivity. exact Hind.
    + destruct (Hfail 1 ltac:(lia)) as [e1 H1].
      destruct (Hfail 2 ltac:(lia)) as [e2 H2]. rewrite H1, H2, Hok in *.
      repeat split; try reflexivity. exact Hind.
Qed.

Lemma fetch_article_first_success_witness :
  let o := @fetch_article _ (@Europarl_Fetcher _ Example.api)
             (fun attempt =>
                match attempt with
                | 2 => Response 200 (lit "<two meetings>")
                | _ => Response 503 (lit "busy")
                end)
             Example.referer Example.fetcher in
  value o = inr (Some (lit "<two meetings>"))
  /\ count_gets (events o) = 2
  /\ count_sleeps (events o) = 1.
Proof.
  destruct (fetch_article_first_success
              _ (@Europarl_Fetcher _ Example.api)
              (fun attempt =>
                 match attempt with
                 | 2 => Response 200 (lit "<two meetings>")
                 | _ => Response 503 (lit "busy")
                 end)
              Example.referer Example.fetcher 2
              (Some (lit "<two meetings>")))
    as (Hv & _ & Hg & Hs & _).
  - lia.
  - intros j Hj. assert (j = 1) as -> by lia. eexists. reflexivity.
  - reflexivity.
  - cbv zeta. repeat split; assumption.
Defined.

(** X2.  Whatever the transport replies, one fetch issues between one and
    three GETs, all for its own URL with the timeout of the fetcher,
    sleeps once between two consecutive GETs and never otherwise, leaves
    the fetcher as it was, and ends either with a body, which is never
    [None], or with a [RetryError] after the third GET: the exception of
    an attempt never reaches the caller unwrapped. *)
Theorem fetch_article_bounds :
  forall (Self : Type) (F : Fetcher Self) (replies : nat -> Reply)
         (article_url : str) (self : Self),
    let o := fetch_article replies article_url self in
    1 <= count_gets (events o) <= 3
    /\ count_sleeps (events o) = count_gets (events o) - 1
    /\ Forall (fun ev => is_HttpGet ev = true ->
                         ev = HttpGet article_url (timeout (base self)))
              (events o)
    /\ Forall (fun ev => is_Sleep ev = true -> ev = Sleep 2) (events o)
    /\ self_after o = self
    /\ ((exists text, value o = inr (Some text))
        \/ (exists e, value o = inl (RetryError e)
                      /\ count_gets (events o) = 3)).
Proof.
  intros Self F replies article_url self o. subst o.
  rewrite fetch_article_unfold. cbv zeta.
  destruct (checked (replies 1)) as [e1|b1] eqn:E1;
    [destruct (checked (replies 2)) as [e2|b2] eqn:E2;
     [destruct (checked (replies 3)) as [e3|b3] eqn:E3|]|];
    cbn [events value self_after];
    (split; [cbn; lia|]); (split; [reflexivity|]);
    (split; [repeat constructor; cbn; congruence|]);
    (split; [repeat constructor; cbn; congruence|]);
    (split; [reflexivity|]).
  - right. exists e3. split; reflexivity.
  - left. destruct (checked_body _ _ E3) as [text ->]. eauto.
  - left. destruct (checked_body _ _ E2) as [text ->]. eauto.
  - left. destruct (checked_body _ _ E1) as [text ->]. eauto.
Qed.

(** ** Planning at the edges *)

Lemma page_range_nonpositive (pages : Z) : (pages <= 0)%Z -> page_range pages = [].
Proof.
  intros Hp. unfold page_range.
  replace (Z.to_nat pages) with 0 by lia. reflexivity.
Qed.

Lemma planned_nil (self : EuroparlMeetingFetcher) : planned self [] = self.
Proof.
  unfold planned. cbn [map].
  now rewrite List.app_nil_r, set_article_links_eta, with_super_eta.
Qed.

(** X3.  A page count of zero or less is not an error: planning adds no
    link and logs nothing, so the run fetches the links the fetcher
    already holds.  On a fresh fetcher that is the referer alone, and a
    run whose fetch of it returns stores the records of the referer
    page. *)
Theorem run_async_without_pages :
  forall (Node : Type) (api : API Node) (net : Network)
         (completion : list nat) (pages : Z)
         (fetcher : EuroparlMeetingFetcher),
    (pages <= 0)%Z ->
    retrieve_links (page_range pages) fetcher = mkOutcome [] fetcher (inr tt)
    /\ article_links
         (super (self_after (run_async net completion pages fetcher)))
       = article_links (super fetcher)
    /\ forall referer_url body,
        article_links (super fetcher) = [referer_url] ->
        fetched (net 0) = inr (Some body) ->
        let o := run_async net [0] pages fetcher in
        value o = inr tt
        /\ articles (super (self_after o)) = page_records body referer_url.
Proof.
  intros Node api net completion pages fetcher Hp.
  pose proof (page_range_nonpositive _ Hp) as Hr.
  split; [|split].
  - now rewrite Hr, retrieve_links_outcome, planned_nil.
  - rewrite run_async_outcome. cbv zeta. rewrite Hr, planned_nil.
    destruct (value (gather _ _ _)); [reflexivity|].
    now destruct fetcher as [[] ? ?].
  - intros referer_url body Hlinks Hbody o. subst o.
    rewrite run_async_outcome. cbv zeta. rewrite Hr, planned_nil, Hlinks.
    destruct (gather_in_link_order net [referer_url] [0] [Some body] fetcher)
      as [Hv _].
    + apply Permutation_refl.
    + reflexivity.
    + intros i b Hi. destruct i as [|i].
      * cbn in Hi. inversion Hi; subst. exact Hbody.
      * destruct i; discriminate Hi.
    + rewrite Hv. cbn [value self_after]. split; [reflexivity|].
      pose proof (flatten_parse_pages [body] [referer_url]) as Hf.
      cbn [map combine flat_map] in Hf. rewrite List.app_nil_r in Hf.
      destruct fetcher as [[] ? ?]. cbn in *. exact Hf.
Qed.

Lemma run_async_without_pages_witness :
  let o := @run_async _ (@Europarl_Fetcher _ Example.api)
                      Example.net_ok [0] 0 Example.fetcher in
  article_links (super (self_after o)) = [Example.referer]
  /\ value o = inr tt
  /\ articles (super (self_after o)) = [].
Proof.
  destruct (run_async_without_pages
              _ Example.api Example.net_ok [0] 0 Example.fetcher)
    as (_ & Hl & Hr).
  - lia.
  - destruct (Hr Example.referer (lit "<html>profile</html>"))
      as [Hv Ha]; [reflexivity|reflexivity|].
    cbv zeta. split; [exact Hl|]. split; [exact Hv|].
    rewrite Ha. reflexivity.
Defined.

Lemma outcome_eta {Self A} (o : Outcome Self A) :
  mkOutcome (events o) (self_after o) (value o) = o.
Proof. now destruct o. Qed.

Lemma retrieve_links_app {Self} `{Fetcher Self} (l1 l2 : list Z) (self : Self) :
  retrieve_links (l1 ++ l2) self
  = bind (retrieve_links l1) (fun _ => retrieve_links l2) self.
Proof.
  revert self; induction l1 as [|page l1 IH]; intros self.
  - cbn [app retrieve_links]. rewrite bind_eq. unfold ret.
    cbn [value events self_after app]. now rewrite outcome_eta.
  - cbn [app retrieve_links]. rewrite !bind_eq.
    destruct (value (try_except _ _ self)) as [e|[]]; [reflexivity|].
    rewrite IH, !bind_eq. cbn [value events self_after].
    destruct (value (retrieve_links l1 _)) as [e|[]];
      cbn [value events self_after]; [reflexivity|].
    now rewrite List.app_assoc.
Qed.

Lemma retrieve_links_cons_raises {Self} `{Fetcher Self}
      (page : Z) (rest : list Z) (self : Self) (e : Exception) :
  value (Base.construct_or_retrieve_links page self) = inl e ->
  retrieve_links (page :: rest) self
  = mkOutcome (events (Base.construct_or_retrieve_links page self)
               ++ links_failure_log page e)
              (self_after (Base.construct_or_retrieve_links page self))
              (inl e).
Proof.
  intros He. cbn [retrieve_links]. unfold links_failure_log. run_monad.
  rewrite He. cbn [events self_after value app]. reflexivity.
Qed.

Lemma page_range_split (pages k : Z) :
  (1 <= k <= pages)%Z ->
  exists rest, page_range pages = page_range (k - 1) ++ k :: rest.
Proof.
  intros Hk. unfold page_range.
  exists (map Z.of_nat (seq (S (Z.to_nat k)) (Z.to_nat pages - Z.to_nat k))).
  replace (Z.to_nat pages)
    with (Z.to_nat (k - 1) + S (Z.to_nat pages - Z.to_nat k)) at 1 by lia.
  rewrite seq_app, map_app. f_equal.
  cbn [seq map]. f_equal; [lia|]. do 2 f_equal. lia.
Qed.

(** X4.  When retrieving the links of page [k] raises, after the pages
    before it went through, the run logs one warning naming the page and
    the exception and raises that same exception: nothing follows the
    warning in the trace, so no task is created and no fetch is made, and
    what the earlier pages did to the fetcher stays. *)
Theorem run_async_aborts_when_planning_raises :
  forall (Self : Type) (F : Fetcher Self) (net : Network)
         (completion : list nat) (pages : Z) (self : Self)
         (k : Z) (e : Exception),
    (1 <= k <= pages)%Z ->
    let before := retrieve_links (page_range (k - 1)) self in
    value before = inr tt ->
    let attempt := Base.construct_or_retrieve_links k (self_after before) in
    value attempt = inl e ->
    let o := run_async net completion pages self in
    value o = inl e
    /\ events o = events before ++ events attempt ++ links_failure_log k e
    /\ self_after o = self_after attempt.
Proof.
  intros Self F net completion pages self k e Hk before Hbefore attempt
         Hattempt o.
  destruct (page_range_split pages k Hk) as [rest Hsplit].
  assert (Hplan : retrieve_links (page_range pages) self
                  = mkOutcome (events before ++ events attempt
                               ++ links_failure_log k e)
                              (self_after attempt) (inl e)).
  { rewrite Hsplit, retrieve_links_app, bind_eq. fold before.
    rewrite Hbefore.
    rewrite (retrieve_links_cons_raises k rest (self_after before) e Hattempt).
    reflexivity. }
  subst o. unfold run_async, fetch_all_articles.
  rewrite bind_eq, (bind_eq (retrieve_links (page_range pages))), Hplan.
  cbn [value events self_after]. auto.
Qed.

Lemma run_async_aborts_when_planning_raises_witness :
  let o := @run_async _ Flaky.Flaky_Fetcher Example.net_ok [0; 1; 2] 3
                      Flaky.fetcher in
  value o = inl (OtherException (lit "no links on this page"))
  /\ events o
     = links_failure_log 2 (OtherException (lit "no links on this page"))
  /\ article_links (self_after o) = [lit "1"].
Proof.
  destruct (run_async_aborts_when_planning_raises
              _ Flaky.Flaky_Fetcher Example.net_ok [0; 1; 2] 3
              Flaky.fetcher 2 (OtherException (lit "no links on this page")))
    as (Hv & He & Hs).
  - lia.
  - reflexivity.
  - reflexivity.
  - cbv zeta. split; [exact Hv|]. split; [rewrite He|rewrite Hs]; reflexivity.
Defined.

(** ** What a page logs *)

Section PageLog.
Context {Node : Type} {api : API Node}.

Lemma fst_try_field (record : list Event * dict) (key : str)
      (extracted : Exception + PyVal) (message : str) :
  fst (try_field record key extracted message)
  = fst record ++ field_warning message extracted.
Proof.
  destruct extracted; cbn; [reflexivity|now rewrite List.app_nil_r].
Qed.

Lemma fst_record_of (page : Z) (header : Node) :
  fst (record_of page header) = record_warnings header.
Proof.
  unfold record_of, record_warnings. cbn [fst].
  rewrite !fst_try_field. cbn [fst app].
  now rewrite <- !List.app_assoc.
Qed.

Lemma fst_records_of (page : Z) (headers : list Node) :
  fst (records_of page headers) = flat_map record_warnings headers.
Proof.
  induction headers as [|h hs IH]; cbn [records_of flat_map]; [reflexivity|].
  rewrite <- IH, <- (fst_record_of page h).
  destruct (record_of page h), (records_of page hs); reflexivity.
Qed.

Lemma field_warning_length (message : str) (extracted : Exception + PyVal) :
  List.length (field_warning message extracted) <= 1.
Proof. destruct extracted; cbn; lia. Qed.

Lemma record_warnings_length (header : Node) :
  List.length (record_warnings header) <= 6.
Proof.
  unfold record_warnings. rewrite !length_app.
  pose proof (field_warning_length (lit "Failed to retrieve title: {}")
                                   (Title header)).
  pose proof (field_warning_length (lit "Failed to retrieve date: {}")
                                   (Date header)).
  pose proof (field_warning_length (lit "Failed to retrieve place: {}")
                                   (Place header)).
  pose proof (field_warning_length (lit "Failed to retrieve capacity: {}")
                                   (Capacity header)).
  pose proof (field_warning_length (lit "Failed to retrieve code: {}")
                                   (Code header)).
  pose proof (field_warning_length (lit "Failed to retrieve meeting: {}")
                                   (Meeting_with header)).
  lia.
Qed.
End PageLog.

(** X5.  On a page whose headers are selected, [parse_article] logs one
    warning for each field whose extraction raises, header by header in
    the order of the fields, and nothing else: at most six per header,
    none when every extraction returns.  It emits as many records as
    there are headers; a page with markup but no header gives the empty
    list, not [None], and logs nothing. *)
Theorem parse_logs_one_warning_per_failed_field :
  forall (Node : Type) (api : API Node) (article_html article_url : str)
         (headers : list Node),
    strip article_html <> [] ->
    headers_of article_html = inr headers ->
    fst (parse article_html article_url) = flat_map record_warnings headers
    /\ List.length (fst (parse article_html article_url))
       <= 6 * List.length headers
    /\ List.length (page_records article_html article_url)
       = List.length headers
    /\ (headers = [] -> parse article_html article_url = ([], Some []))
    /\ (Forall (fun header =>
                  exists t d p c k m,
                    Title header = inr t /\ Date header = inr d
                    /\ Place header = inr p /\ Capacity header = inr c
                    /\ Code header = inr k /\ Meeting_with header = inr m)
               headers ->
        fst (parse article_html article_url) = []).
Proof.
  intros Node api article_html article_url headers Hne Hh.
  assert (Hlog : fst (parse article_html article_url)
                 = flat_map record_warnings headers).
  { rewrite (parse_not_blank _ _ Hne), Hh. cbn [fst]. apply fst_records_of. }
  split; [exact Hlog|]. split; [|split; [|split]].
  - rewrite Hlog. clear. induction headers as [|h hs IH]; cbn [flat_map];
      [cbn; lia|].
    rewrite length_app. pose proof (record_warnings_length h).
    cbn [List.length]. lia.
  - unfold page_records. rewrite (parse_not_blank _ _ Hne), Hh. cbn [snd].
    apply length_map.
  - intros ->. now rewrite (parse_not_blank _ _ Hne), Hh.
  - intros Hall. rewrite Hlog. clear Hlog Hh.
    induction Hall as [|h hs (t & d & p & c & k & m & Ht & Hd & Hp & Hc & Hk & Hm)
                          Hall IH]; [reflexivity|].
    cbn [flat_map]. rewrite IH. unfold record_warnings.
    now rewrite Ht, Hd, Hp, Hc, Hk, Hm.
Qed.

Lemma parse_logs_one_warning_per_failed_field_witness :
  exists e,
    fst (@parse _ Example.api (lit "<one meeting, no date>") Example.referer)
    = [Log WARNING (lit "Failed to retrieve date: {}") [AExc e]].
Proof.
  destruct (parse_logs_one_warning_per_failed_field
              _ Example.api (lit "<one meeting, no date>") Example.referer
              [Example.meeting_without_date "C"]) as (Hlog & _).
  - discriminate.
  - reflexivity.
  - eexists. rewrite Hlog. reflexivity.
Defined.

(** ** The normalised text fields *)

Lemma lstrip_head (s : str) (c : ascii) (t : str) :
  lstrip s = c :: t -> is_space c = false.
Proof.
  induction s as [|a s IH]; cbn; [discriminate|].
  destruct (is_space a) eqn:Ea; [exact IH|].
  intros E; inversion E; subst. exact Ea.
Qed.

Lemma rstrip_snoc (t : str) (c : ascii) :
  rstrip (t ++ [c]) = if is_space c then rstrip t else t ++ [c].
Proof.
  unfold rstrip. rewrite rev_app_distr. cbn [rev app lstrip].
  destruct (is_space c); [reflexivity|].
  cbn [rev]. now rewrite rev_involutive.
Qed.

Lemma rstrip_prefix (s : str) : exists suffix, s = rstrip s ++ suffix.
Proof.
  induction s as [|c t IH] using rev_ind; [now exists []|].
  rewrite rstrip_snoc. destruct (is_space c).
  - destruct IH as [suffix IH]. exists (suffix ++ [c]).
    now rewrite List.app_assoc, <- IH.
  - exists []. now rewrite List.app_nil_r.
Qed.

Lemma rstrip_last (s t : str) (c : ascii) :
  rstrip s = t ++ [c] -> is_space c = false.
Proof.
  induction s as [|a s IH] using rev_ind.
  - cbn. intros E. now destruct t.
  - rewrite rstrip_snoc. destruct (is_space a) eqn:Ea; [exact IH|].
    intros E. apply app_inj_tail in E as [_ <-]. exact Ea.
Qed.

Lemma strip_no_outer_space (s : str) : no_outer_space (strip s).
Proof.
  unfold strip. split.
  - intros c t E.
    destruct (rstrip_prefix (lstrip s)) as [suffix Hp].
    rewrite E in Hp. cbn in Hp. now apply (lstrip_head s c (t ++ suffix)).
  - intros t c E. now apply (rstrip_last (lstrip s) t c).
Qed.

Lemma replace_newline_app (new a b : str) :
  replace_newline new (a ++ b)
  = replace_newline new a ++ replace_newline new b.
Proof.
  induction a as [|c a IH]; cbn [app replace_newline]; [reflexivity|].
  destruct (Ascii.eqb c newline); rewrite IH;
    [now rewrite List.app_assoc|reflexivity].
Qed.

Lemma replace_newline_no_newline (new s : str) :
  ~ In newline new -> ~ In newline (replace_newline new s).
Proof.
  intros Hnew. induction s as [|c s IH]; cbn [replace_newline In]; [tauto|].
  destruct (Ascii.eqb c newline) eqn:Ec.
  - intros Hin. apply in_app_or in Hin. tauto.
  - intros [E|Hin]; [|tauto]. subst c. now rewrite Ascii.eqb_refl in Ec.
Qed.

Lemma not_space_not_newline (c : ascii) :
  is_space c = false -> Ascii.eqb c newline = false.
Proof.
  intros Hc. destruct (Ascii.eqb c newline) eqn:E; [|reflexivity].
  apply Ascii.eqb_eq in E. subst c. discriminate.
Qed.

Lemma replace_newline_no_outer_space (s : str) :
  no_outer_space s -> no_outer_space (replace_newline (lit " - ") s).
Proof.
  intros [Hhead Hlast]. split.
  - intros c t E. destruct s as [|a s]; [discriminate|].
    pose proof (Hhead a s eq_refl) as Ha.
    cbn [replace_newline] in E. rewrite (not_space_not_newline _ Ha) in E.
    inversion E; subst. exact Ha.
  - intros t c E.
    destruct (exists_last (l := s)) as (s0 & a & ->).
    { intros ->. now destruct t. }
    pose proof (Hlast s0 a eq_refl) as Ha.
    rewrite replace_newline_app in E. cbn [replace_newline] in E.
    rewrite (not_space_not_newline _ Ha) in E.
    apply app_inj_tail in E as [_ <-]. exact Ha.
Qed.

Lemma stripped_text_of_inv {Node : Type} {api : API Node}
      (header : Node) (selector : str) (v : PyVal) :
  stripped_text_of header selector = inr v ->
  exists t, v = PyString (replace_newline (lit " - ") (strip t)).
Proof.
  unfold stripped_text_of, call, fmap.
  destruct (select_one header selector) as [e|[node|]]; try discriminate.
  destruct (get_text node) as [e|t]; [discriminate|].
  intros E; inversion E; eauto.
Qed.

(** X6.  Whenever [Capacity], the committee code or [Meeting with] is
    extracted, the stored value is a string without any newline that
    neither starts nor ends with whitespace: the text is stripped, and
    every newline left inside it has become [" - "]. *)
Theorem stripped_fields_are_normalised :
  forall (Node : Type) (api : API Node) (header : Node) (v : PyVal),
    Capacity header = inr v \/ Code header = inr v
    \/ Meeting_with header = inr v ->
    exists s,
      v = PyString s /\ ~ In newline s /\ no_outer_space s.
Proof.
  intros Node api header v Hv.
  assert (H : exists t, v = PyString (replace_newline (lit " - ") (strip t))).
  { destruct Hv as [Hv|[Hv|Hv]]; eapply stripped_text_of_inv; exact Hv. }
  destruct H as [t ->]. eexists. split; [reflexivity|]. split.
  - apply replace_newline_no_newline. cbn. intros [E|[E|[E|[]]]]; discriminate E.
  - apply replace_newline_no_outer_space, strip_no_outer_space.
Qed.

Lemma stripped_fields_are_normalised_witness :
  exists s,
    @Capacity _ Example.api (Example.meeting "A") = inr (PyString s)
    /\ s = lit "Member" /\ ~ In newline s.
Proof.
  destruct (stripped_fields_are_normalised
              _ Example.api (Example.meeting "A") (PyString (lit "Member")))
    as (s & Hs & Hn & _).
  - left. reflexivity.
  - exists s. inversion Hs; subst. split; [reflexivity|].
    split; [reflexivity|exact Hn].
Defined.

(** ** Construction *)

Lemma extract_member_id_inv (referer_url id : str) :
  extract_member_id referer_url = inr id ->
  exists pre t, referer_url = pre ++ t /\ member_segment id t.
Proof.
  unfold extract_member_id.
  destruct (search match_member_id referer_url) as [ds|] eqn:Es; [|discriminate].
  intros E; inversion E; subst; clear E.
  apply search_Some_inv in Es as (pre & t & -> & Hm).
  apply match_member_id_iff in Hm. eauto.
Qed.

Lemma extract_member_id_complete (referer_url : str) :
  (exists pre ds t, referer_url = pre ++ t /\ member_segment ds t) ->
  exists id, extract_member_id referer_url = inr id.
Proof.
  intros (pre & ds & t & -> & Hseg). unfold extract_member_id.
  destruct (search match_member_id (pre ++ t)) as [id|] eqn:Es; [eauto|].
  apply search_None_inv in Es.
  apply match_member_id_iff in Hseg. congruence.
Qed.

(** X7.  The constructor succeeds exactly when [max_connections] is not
    negative and the referer has a [/<digits>/] segment.  A negative
    [max_connections] raises the [ValueError] of the semaphore whatever
    the referer is.  A constructed fetcher holds the referer as its only
    link, no article, the given timeout and [max_connections] permits,
    and its member id is a non-empty run of digits that stands between
    two slashes in the referer. *)
Theorem init_succeeds_iff :
  forall (referer_url : str) (timeout max_connections : Z),
    ((exists fetcher, init referer_url timeout max_connections = inr fetcher)
     <-> (0 <= max_connections)%Z
         /\ exists pre ds t, referer_url = pre ++ t /\ member_segment ds t)
    /\ ((max_connections < 0)%Z ->
        init referer_url timeout max_connections
        = inl (ValueError (lit "Semaphore initial value must be >= 0")))
    /\ forall fetcher,
        init referer_url timeout max_connections = inr fetcher ->
        super fetcher
        = mkBaseFetcher (Some loadmore_url) [referer_url] [] timeout
                        (mkSemaphore max_connections)
        /\ Europarl.referer_url fetcher = referer_url
        /\ member_id fetcher <> []
        /\ forallb is_digit (member_id fetcher) = true
        /\ exists pre post,
            referer_url
            = pre ++ lit "/" ++ member_id fetcher ++ lit "/" ++ post.
Proof.
  intros referer_url timeout max_connections. split; [split|split].
  - intros [fetcher Hinit].
    destruct (init_inv _ _ _ _ Hinit) as (Hid & Hsuper & _).
    split.
    + unfold init, BaseFetcher_init, Semaphore_init in Hinit.
      destruct (Z.ltb_spec max_connections 0); [discriminate|lia].
    + destruct (extract_member_id_inv _ _ Hid) as (pre & t & E & Hseg).
      now exists pre, (member_id fetcher), t.
  - intros [Hmc Hseg].
    destruct (extract_member_id_complete _ Hseg) as [id Hid].
    unfold init, BaseFetcher_init, Semaphore_init.
    destruct (Z.ltb_spec max_connections 0); [lia|].
    rewrite Hid. eauto.
  - intros Hmc. unfold init, BaseFetcher_init, Semaphore_init.
    destruct (Z.ltb_spec max_connections 0); [reflexivity|lia].
  - intros fetcher Hinit.
    destruct (init_inv _ _ _ _ Hinit) as (Hid & Hsuper & Href).
    destruct (extract_member_id_inv _ _ Hid)
      as (pre & t & E & Hne & Hd & post & ->).
    repeat split; auto. now exists pre, post.
Qed.

Lemma init_succeeds_iff_witness :
  (exists fetcher, init Example.referer 10 8 = inr fetcher)
  /\ init Example.referer 10 (-1)
     = inl (ValueError (lit "Semaphore initial value must be >= 0")).
Proof.
  split.
  - apply (proj1 (init_succeeds_iff Example.referer 10 8)).
    split; [lia|].
    exists (lit "https://www.europarl.europa.eu/meps/en"), (lit "256864"),
      (lit "/256864/ANDRAS+TIVADAR_KULJA/meetings/past").
    split; [reflexivity|]. unfold member_segment.
    split; [discriminate|]. split; [reflexivity|].
    exists (lit "ANDRAS+TIVADAR_KULJA/meetings/past"). reflexivity.
  - apply (init_succeeds_iff Example.referer 10 (-1)). lia.
Defined.

(** ** The planned links are distinct *)

Lemma search_member_id_no_slash (s : str) :
  forallb (fun c => negb (Ascii.eqb "/" c)) s = true ->
  search match_member_id s = None.
Proof.
  induction s as [|c s IH]; [reflexivity|].
  cbn [forallb]. intros H. apply andb_prop in H as [Hc Hs].
  cbn [search]. unfold match_member_id at 1.
  change (lit "/") with ["/"%char]. cbn [lit_prefix].
  destruct (Ascii.eqb "/" c); [discriminate|]. now apply IH.
Qed.

Lemma digits_no_slash (ds : str) :
  forallb is_digit ds = true ->
  forallb (fun c => negb (Ascii.eqb "/" c)) ds = true.
Proof.
  induction ds as [|c ds IH]; [reflexivity|].
  cbn [forallb]. intros H. apply andb_prop in H as [Hc Hd].
  rewrite (IH Hd), andb_true_r.
  destruct (Ascii.eqb "/" c) eqn:E; [|reflexivity].
  apply Ascii.eqb_eq in E. subst c. discriminate.
Qed.

(** A constructed URL has no [/<digits>/] segment. *)
Lemma extract_member_id_of_page_url (member_id : str) (k : Z) :
  forallb is_digit member_id = true -> (0 <= k)%Z ->
  extract_member_id (url_prefix member_id ++ str_of_int k ++ url_suffix)
  = inl member_id_not_found.
Proof.
  intros Hid Hk. unfold extract_member_id, url_prefix.
  rewrite (quote_plus_digits _ Hid), <- !List.app_assoc.
  rewrite search_skip.
  2:{ intros j Hj. cbn in Hj.
      do 56 (destruct j as [|j]; [reflexivity|]). lia. }
  rewrite search_member_id_no_slash; [reflexivity|].
  rewrite !forallb_app, (digits_no_slash _ Hid),
    (digits_no_slash _ (str_of_int_digits k Hk)).
  reflexivity.
Qed.

Lemma page_url_injective (member_id : str) (k1 k2 : Z) :
  forallb is_digit member_id = true -> (0 <= k1)%Z -> (0 <= k2)%Z ->
  url_prefix member_id ++ str_of_int k1 ++ url_suffix
  = url_prefix member_id ++ str_of_int k2 ++ url_suffix ->
  k1 = k2.
Proof.
  intros Hid H1 H2 E.
  rewrite <- (page_of_constructed member_id k1 Hid H1),
          <- (page_of_constructed member_id k2 Hid H2).
  now rewrite E.
Qed.

Lemma page_range_NoDup (pages : Z) : NoDup (page_range pages).
Proof.
  unfold page_range. apply NoDup_map_NoDup_ForallPairs; [|apply seq_NoDup].
  intros x y _ _ E. lia.
Qed.

Lemma page_range_positive (pages k : Z) : In k (page_range pages) -> (1 <= k)%Z.
Proof.
  unfold page_range. intros Hin.
  apply in_map_iff in Hin as (n & <- & Hn). apply in_seq in Hn. lia.
Qed.

(** X8.  The links planned by the first run of a constructed fetcher are
    pairwise distinct: different pages give different URLs, and no
    constructed URL is the referer, since a constructed URL has no
    [/<digits>/] segment (given to [extract_member_id] it raises).  No URL
    is fetched twice in a first run. *)
Theorem first_run_links_distinct :
  forall (Node : Type) (api : API Node) (referer_url : str)
         (timeout max_connections : Z) (fetcher : EuroparlMeetingFetcher)
         (pages : Z),
    init referer_url timeout max_connections = inr fetcher ->
    NoDup (article_links
             (super (self_after (retrieve_links (page_range pages) fetcher))))
    /\ forall k, (0 <= k)%Z ->
                 extract_member_id
                   (constructed_url (base_url (super fetcher))
                                    (member_id fetcher) k)
                 = inl member_id_not_found.
Proof.
  intros Node api referer_url timeout max_connections fetcher pages Hinit.
  destruct (init_inv _ _ _ _ Hinit) as (Hid & Hsuper & _).
  destruct (extract_member_id_digits _ _ Hid) as [_ Hd].
  assert (Hpage : forall k, (0 <= k)%Z ->
             extract_member_id
               (constructed_url (base_url (super fetcher)) (member_id fetcher) k)
             = inl member_id_not_found).
  { intros k Hk. rewrite Hsuper. cbn [base_url].
    rewrite constructed_url_shape. now apply extract_member_id_of_page_url. }
  split; [|exact Hpage].
  rewrite retrieve_links_outcome. cbn [self_after]. unfold planned.
  rewrite Hsuper in *. cbn [super with_super set_article_links article_links
                            base_url app] in *.
  constructor.
  - intros Hin. apply in_map_iff in Hin as (k & Ek & Hk).
    apply page_range_positive in Hk.
    specialize (Hpage k ltac:(lia)). rewrite Ek, Hid in Hpage. discriminate.
  - apply NoDup_map_NoDup_ForallPairs; [|apply page_range_NoDup].
    intros k1 k2 H1 H2 E.
    apply page_range_positive in H1, H2.
    rewrite !constructed_url_shape in E.
    apply (page_url_injective (member_id fetcher)); auto; lia.
Qed.

Lemma first_run_links_distinct_witness :
  NoDup (article_links
           (super (self_after
                     (@retrieve_links _ (@Europarl_Fetcher _ Example.api)
                                      (page_range 3) Example.fetcher)))).
Proof.
  apply (first_run_links_distinct
           _ Example.api Example.referer 10 8 Example.fetcher 3).
  reflexivity.
Defined.

(** ** One call of [construct_or_retrieve_links] *)





(** ** The tasks on the event loop, for every schedule *)

Lemma exec_app (net : Network) (l : Loop) (s1 s2 : list Action) :
  exec net l (s1 ++ s2)
  = match exec net l s1 with
    | Some l' => exec net l' s2
    | None => None
    end.
Proof.
  revert l; induction s1 as [|a s1 IH]; intros l; cbn [app exec]; [reflexivity|].
  destruct (step net l a); [apply IH|reflexivity].
Qed.

Lemma update_length {A} (l : list A) (i : nat) (x : A) :
  List.length (update l i x) = List.length l.
Proof.
  revert i; induction l as [|a l IH]; intros [|i]; cbn; auto.
Qed.

Lemma step_length (net : Network) (a : Action) (l l' : Loop) :
  step net l a = Some l' -> List.length (tasks l') = List.length (tasks l).
Proof.
  destruct a as [i|i|i]; cbn [step];
    destruct (nth_error (tasks l) i) as [[| | |]|];
    intros E; inversion E; cbn [tasks]; apply update_length.
Qed.

Lemma exec_length (net : Network) (schedule : list Action) (l l' : Loop) :
  exec net l schedule = Some l' ->
  List.length (tasks l') = List.length (tasks l).
Proof.
  revert l; induction schedule as [|a rest IH]; intros l; cbn [exec].
  - intros E; now inversion E.
  - destruct (step net l a) as [l1|] eqn:Es; [|discriminate].
    intros E. rewrite (IH _ E). eapply step_length; eauto.
Qed.

Lemma spawn_consistent (net : Network) (b : BaseFetcher) (i : nat) (t : Task) :
  nth_error (tasks (spawn b)) i = Some t -> consistent net i t.
Proof.
  unfold spawn. cbn [tasks]. rewrite nth_error_map.
  destruct (nth_error (article_links b) i); intros E; inversion E. exact I.
Qed.

Lemma exec_consistent (net : Network) (schedule : list Action) (l l' : Loop) :
  (forall i t, nth_error (tasks l) i = Some t -> consistent net i t) ->
  exec net l schedule = Some l' ->
  forall i t, nth_error (tasks l') i = Some t -> consistent net i t.
Proof.
  revert l; induction schedule as [|a rest IH]; intros l H0 He; cbn in He.
  - now inversion He; subst.
  - destruct (step net l a) as [l1|] eqn:Es; [|discriminate].
    apply (IH l1); [|exact He]. eapply step_consistent; eauto.
Qed.

(** X10.  The result of a task does not depend on the interleaving: in
    every state the loop can reach from the tasks of a fetcher, by any
    schedule, a finished task holds exactly what [fetch_article] returns
    or raises for the replies to its own attempts; the semaphore is as
    the constructor made it and no task is added or lost. *)
Theorem task_result_independent_of_schedule :
  forall (Self : Type) (F : Fetcher Self) (net : Network) (b : BaseFetcher)
         (schedule : list Action) (l : Loop),
    exec net (spawn b) schedule = Some l ->
    sem l = semaphore b
    /\ List.length (tasks l) = List.length (article_links b)
    /\ forall i result article_url (self : Self),
        nth_error (tasks l) i = Some (Done result) ->
        result = fetched (net i)
        /\ result = value (fetch_article (net i) article_url self).
Proof.
  intros Self F net b schedule l He. split; [|split].
  - apply (exec_sem net schedule (spawn b) l He).
  - rewrite (exec_length net schedule (spawn b) l He).
    unfold spawn. cbn [tasks]. apply length_map.
  - intros i result article_url self Hi.
    pose proof (exec_consistent net schedule (spawn b) l
                                (spawn_consistent net b) He i _ Hi) as Hc.
    cbn in Hc. split; [exact Hc|].
    now rewrite (proj1 (fetch_article_outcome (net i) article_url self)).
Qed.

Lemma task_result_independent_of_schedule_witness :
  inr (Some (lit "<html>profile</html>")) = fetched (Example.net_ok 0).
Proof.
  destruct (task_result_independent_of_schedule
              _ (@Europarl_Fetcher _ Example.api) Example.net_ok
              (super Example.fetcher) [Start 0; Deliver 0]
              (mkLoop [Done (inr (Some (lit "<html>profile</html>")))]
                      (mkSemaphore 8)))
    as (_ & _ & H).
  - reflexivity.
  - exact (proj1 (H 0 (inr (Some (lit "<html>profile</html>")))
                   Example.referer Example.fetcher eq_refl)).
Defined.

(** X11.  For every fetcher, as soon as [gather] has scheduled the tasks
    there is one GET in flight per link, whatever number of permits the
    semaphore was created with, and no schedule ever changes the
    semaphore: the number of concurrent GETs is the number of links. *)
Theorem dispatch_puts_every_link_in_flight :
  forall (net : Network) (b : BaseFetcher),
    (exists l,
        exec net (spawn b) (start_all (spawn b)) = Some l
        /\ in_flight l = List.length (article_links b)
        /\ sem l = semaphore b)
    /\ forall schedule l,
        exec net (spawn b) schedule = Some l ->
        sem l = semaphore b /\ in_flight l <= List.length (article_links b).
Proof.
  intros net b. split; [apply start_all_in_flight|].
  intros schedule l He. split; [apply (exec_sem net schedule (spawn b) l He)|].
  rewrite <- (length_map (fun _ => Created) (article_links b)).
  change (map (fun _ => Created) (article_links b)) with (tasks (spawn b)).
  rewrite <- (exec_length net schedule (spawn b) l He).
  unfold in_flight. apply filter_length_le.
Qed.

Lemma dispatch_puts_every_link_in_flight_witness :
  sem (mkLoop [AwaitingGet 1] (mkSemaphore 0)) = mkSemaphore 0
  /\ in_flight (mkLoop [AwaitingGet 1] (mkSemaphore 0)) <= 1.
Proof.
  apply (proj2 (dispatch_puts_every_link_in_flight
                  Example.net_ok
                  (mkBaseFetcher None [Example.referer] [] 10 (mkSemaphore 0)))
               [Start 0]).
  reflexivity.
Defined.

(** ** Every task ends *)

Lemma nth_error_update_eq {A} (l : list A) (i : nat) (x y : A) :
  nth_error l i = Some y -> nth_error (update l i x) i = Some x.
Proof.
  revert i; induction l as [|a l IH]; intros [|i]; cbn; try discriminate; auto.
Qed.

Lemma update_update {A} (l : list A) (i : nat) (x y : A) :
  update (update l i x) i y = update l i y.
Proof.
  revert i; induction l as [|a l IH]; intros [|i]; cbn; auto.
  now rewrite IH.
Qed.

Lemma step_at (net : Network) (ts : list Task) (s : Semaphore)
      (a : Action) (i : nat) (t t' : Task) :
  nth_error ts i = Some t ->
  (forall l, nth_error (tasks l) i = Some t ->
             step net l a = Some (mkLoop (update (tasks l) i t') (sem l))) ->
  forall x, nth_error (update ts i x) i = Some x ->
  x = t ->
  step net (mkLoop (update ts i x) s) a
  = Some (mkLoop (update ts i t') s).
Proof.
  intros Ht Hstep x Hx ->.
  rewrite (Hstep (mkLoop (update ts i t) s) Hx). cbn [tasks sem].
  now rewrite update_update.
Qed.

Lemma run_task (net : Network) (l : Loop) (i : nat) :
  nth_error (tasks l) i = Some Created ->
  exec net l (task_schedule net i)
  = Some (mkLoop (update (tasks l) i (Done (fetched (net i)))) (sem l)).
Proof.
  intros Hc. destruct l as [ts s]. cbn [tasks sem] in *.
  assert (Hu : forall x, nth_error (update ts i x) i = Some x)
    by (intros x; eapply nth_error_update_eq; exact Hc).
  unfold task_schedule, fetched.
  cbn [exec step tasks sem]. rewrite Hc. cbn [exec step tasks sem].
  rewrite Hu, update_update. cbn [Nat.leb].
  destruct (checked (net i 1)) as [e1|b1]; [|reflexivity].
  cbn [exec step tasks sem]. rewrite Hu, update_update.
  cbn [exec step tasks sem]. rewrite Hu, update_update. cbn [Nat.leb].
  destruct (checked (net i 2)) as [e2|b2]; [|reflexivity].
  cbn [exec step tasks sem]. rewrite Hu, update_update.
  cbn [exec step tasks sem]. rewrite Hu, update_update. cbn [Nat.leb].
  destruct (checked (net i 3)) as [e3|b3]; reflexivity.
Qed.

Lemma exec_sequential (net : Network) (s : Semaphore) (todo : list str)
      (done : list Task) :
  exec net (mkLoop (done ++ map (fun _ => Created) todo) s)
       (flat_map (task_schedule net)
                 (seq (List.length done) (List.length todo)))
  = Some (mkLoop (done ++ map (fun i => Done (fetched (net i)))
                              (seq (List.length done) (List.length todo)))
                 s).
Proof.
  revert done; induction todo as [|u todo IH]; intros done; [reflexivity|].
  cbn [List.length seq flat_map map].
  rewrite exec_app, run_task by (cbn [tasks]; apply nth_error_middle).
  cbn [tasks sem]. rewrite update_app.
  specialize (IH (done ++ [Done (fetched (net (List.length done)))])).
  rewrite <- !List.app_assoc, length_app, Nat.add_1_r in IH. exact IH.
Qed.

Lemma steps_left_update (ts : list Task) (i : nat) (old new : Task) :
  nth_error ts i = Some old ->
  list_sum (map steps_left (update ts i new)) + steps_left old
  = list_sum (map steps_left ts) + steps_left new.
Proof.
  revert i; induction ts as [|t ts IH]; intros [|i]; cbn [nth_error];
    try discriminate.
  - intros E; inversion E; subst. cbn [update map list_sum fold_right]. lia.
  - intros E. cbn [update map list_sum fold_right]. specialize (IH i E).
    unfold list_sum in IH. lia.
Qed.

Lemma step_decreases (net : Network) (a : Action) (l l' : Loop) :
  (forall i t, nth_error (tasks l) i = Some t -> consistent net i t) ->
  step net l a = Some l' ->
  total_steps_left l' < total_steps_left l.
Proof.
  intros Hall Hstep. unfold total_steps_left.
  destruct a as [i|i|i]; cbn [step] in Hstep;
    destruct (nth_error (tasks l) i) as [[|k|k|r]|] eqn:En;
    inversion Hstep; subst; clear Hstep; cbn [tasks];
    pose proof (Hall _ _ En) as Hc; cbn in Hc.
  - pose proof (steps_left_update _ i _ (AwaitingGet 1) En) as Hs.
    cbn [steps_left] in Hs. lia.
  - destruct Hc as [Hk _].
    destruct (checked (net i k)) as [e|body].
    + assert (Hk3 : k = 1 \/ k = 2 \/ k = 3) by lia.
      destruct Hk3 as [ -> | [ -> | -> ] ]; cbn [Nat.leb].
      * pose proof (steps_left_update _ i _ (Sleeping 1) En) as Hs.
        cbn [steps_left] in Hs. lia.
      * pose proof (steps_left_update _ i _ (Sleeping 2) En) as Hs.
        cbn [steps_left] in Hs. lia.
      * pose proof (steps_left_update _ i _ (Done (inl (RetryError e))) En)
          as Hs. cbn [steps_left] in Hs. lia.
    + pose proof (steps_left_update _ i _ (Done (inr body)) En) as Hs.
      cbn [steps_left] in Hs. lia.
  - destruct Hc as [Hk _].
    pose proof (steps_left_update _ i _ (AwaitingGet (S k)) En) as Hs.
    cbn [steps_left] in Hs. lia.
Qed.

Lemma exec_bounded (net : Network) (schedule : list Action) (l l' : Loop) :
  (forall i t, nth_error (tasks l) i = Some t -> consistent net i t) ->
  exec net l schedule = Some l' ->
  List.length schedule + total_steps_left l' <= total_steps_left l.
Proof.
  revert l; induction schedule as [|a rest IH]; intros l Hall He; cbn in He.
  - inversion He; subst. cbn. lia.
  - destruct (step net l a) as [l1|] eqn:Es; [|discriminate].
    pose proof (step_decreases net a l l1 Hall Es).
    pose proof (IH l1 (step_consistent net a l l1 Hall Es) He).
    cbn [List.length]. lia.
Qed.

Lemma total_steps_left_spawn (b : BaseFetcher) :
  total_steps_left (spawn b) = 6 * List.length (article_links b).
Proof.
  unfold total_steps_left, spawn. cbn [tasks].
  induction (article_links b) as [|u links IH]; [reflexivity|].
  cbn [map list_sum fold_right List.length steps_left].
  unfold list_sum in IH. rewrite IH. lia.
Qed.

(** X12.  The tasks of a run always end.  Running the tasks one after the
    other finishes every one of them with the result of its fetch; no
    execution of the loop, whatever the schedule, has more than six steps
    per link (a start, three replies and two sleeps); and in every
    reachable state a task that has not finished can take a step, so no
    task waits for another. *)
Theorem every_task_ends :
  forall (net : Network) (b : BaseFetcher),
    let n := List.length (article_links b) in
    (exists l,
        exec net (spawn b) (sequential_schedule net n) = Some l
        /\ unfinished l = 0
        /\ tasks l = map (fun i => Done (fetched (net i))) (seq 0 n))
    /\ (forall schedule l,
           exec net (spawn b) schedule = Some l ->
           List.length schedule + total_steps_left l <= 6 * n)
    /\ (forall schedule l i t,
           exec net (spawn b) schedule = Some l ->
           nth_error (tasks l) i = Some t ->
           (forall result, t <> Done result) ->
           exists a l', step net l a = Some l').
Proof.
  intros net b n. split; [|split].
  - exists (mkLoop (map (fun i => Done (fetched (net i))) (seq 0 n)) (semaphore b)).
    split; [apply (exec_sequential net (semaphore b) (article_links b) [])|].
    split; [|reflexivity].
    unfold unfinished. cbn [tasks].
    induction (seq 0 n) as [|i l IH]; [reflexivity|exact IH].
  - intros schedule l He. subst n.
    rewrite <- total_steps_left_spawn.
    apply (exec_bounded net schedule (spawn b) l (spawn_consistent net b) He).
  - intros schedule l i t _ Hi Hnot.
    destruct t as [|k|k|r].
    + exists (Start i). eexists. cbn [step]. now rewrite Hi.
    + exists (Deliver i). eexists. cbn [step]. now rewrite Hi.
    + exists (Wake i). eexists. cbn [step]. now rewrite Hi.
    + now destruct (Hnot r).
Qed.

Lemma every_task_ends_witness :
  List.length [Start 0; Deliver 0] + 0 <= 6 * 1.
Proof.
  apply (proj1 (proj2 (every_task_ends
                         Example.net_ok (super Example.fetcher)))
               [Start 0; Deliver 0]
               (mkLoop [Done (inr (Some (lit "<html>profile</html>")))]
                       (mkSemaphore 8))).
  reflexivity.
Defined.

(** ** Which exception a run raises *)

Lemma await_first_failure {Self} `{Fetcher Self}
      (net : Network) (links : list str) (pre post : list nat) (i : nat)
      (e : Exception) (self : Self) :
  i < List.length links ->
  fetched (net i) = inl e ->
  (forall j, In j pre -> j < List.length links ->
             exists body, fetched (net j) = inr body) ->
  value (await_as_completed (fetch_tasks net links) (pre ++ i :: post) self)
  = inl e.
Proof.
  intros Hi He Hpre. induction pre as [|j pre IH]; cbn [app await_as_completed].
  - rewrite nth_error_fetch_tasks.
    destruct (nth_error links i) as [url|] eqn:El.
    + rewrite bind_eq.
      now rewrite (proj1 (fetch_article_outcome (net i) url self)), He.
    + apply nth_error_None in El. lia.
  - rewrite nth_error_fetch_tasks.
    assert (IH' := IH (fun k Hk => Hpre k (or_intror Hk))).
    destruct (nth_error links j) as [url|] eqn:El; [|exact IH'].
    destruct (Hpre j (or_introl eq_refl)) as [body Hb].
    { apply nth_error_Some. congruence. }
    destruct (fetch_article_outcome (net j) url self) as [Hv Hs].
    rewrite bind_eq, Hv, Hb, Hs. cbn [value].
    rewrite bind_eq, IH'. reflexivity.
Qed.

(** X14.  When several fetches exhaust their attempts, the exception the
    run raises is the [RetryError] of the failing task that completes
    first, not of the one that comes first in the link list: it depends
    on the order of completion. *)
Theorem run_async_raises_first_completed_failure :
  forall (Node : Type) (api : API Node) (net : Network) (pages : Z)
         (fetcher : EuroparlMeetingFetcher)
         (pre post : list nat) (i : nat) (e : Exception),
    let links :=
      article_links
        (super (self_after (retrieve_links (page_range pages) fetcher))) in
    i < List.length links ->
    fetched (net i) = inl e ->
    (forall j, In j pre -> j < List.length links ->
               exists body, fetched (net j) = inr body) ->
    value (run_async net (pre ++ i :: post) pages fetcher) = inl e.
Proof.
  intros Node api net pages fetcher pre post i e links Hi He Hpre.
  subst links. rewrite retrieve_links_outcome in *. cbn [self_after] in *.
  rewrite run_async_outcome. cbv zeta.
  set (p := planned fetcher (page_range pages)) in *.
  assert (Hg : value (gather (fetch_tasks net (article_links (super p)))
                             (pre ++ i :: post) p) = inl e).
  { unfold gather. rewrite bind_eq.
    now rewrite (await_first_failure net _ pre post i e p Hi He Hpre). }
  now rewrite Hg.
Qed.

Lemma run_async_raises_first_completed_failure_witness :
  value (@run_async _ (@Europarl_Fetcher _ Example.api)
                    Outage.net ([0] ++ 2 :: [1]) 2 Example.fetcher)
  = inl (RetryError (HTTPStatusError 404))
  /\ value (@run_async _ (@Europarl_Fetcher _ Example.api)
                       Outage.net ([0] ++ 1 :: [2]) 2 Example.fetcher)
     = inl (RetryError (HTTPStatusError 500)).
Proof.
  split.
  - apply (run_async_raises_first_completed_failure
             _ Example.api Outage.net 2 Example.fetcher [0] [1] 2).
    + vm_compute. lia.
    + reflexivity.
    + intros j [<-|[]] _. eexists. reflexivity.
  - apply (run_async_raises_first_completed_failure
             _ Example.api Outage.net 2 Example.fetcher [0] [2] 1).
    + vm_compute. lia.
    + reflexivity.
    + intros j [<-|[]] _. eexists. reflexivity.
Defined.

(** ** Which page number a URL reads as *)






(** ** The two ways a date is missing *)

Lemma Date_without_element {Node : Type} {api : API Node} (header : Node) :
  select_one header (lit "time") = inr None ->
  exists e, Date header = inl e.
Proof. intros Hs. unfold Date, call. rewrite Hs. eauto. Qed.

Lemma Date_without_attribute {Node : Type} {api : API Node}
      (header node : Node) :
  select_one header (lit "time") = inr (Some node) ->
  get node (lit "datetime") = inr None ->
  Date header = inr PyNone.
Proof. intros Hs Hg. unfold Date, call, fmap. now rewrite Hs, Hg. Qed.

(** X15.  On a page with one header whose other five fields are
    extracted, the date is stored as [None] in two ways that only the log
    tells apart.  Without a [time] element the [try] block raises and the
    page logs exactly one warning, for the date.  With a [time] element
    that has no [datetime] attribute nothing raises: [get] returns [None],
    the same record is emitted and the page logs nothing. *)
Theorem date_missing_two_ways :
  forall (Node : Type) (api : API Node) (article_html article_url : str)
         (header : Node) (t p c k m : PyVal),
    strip article_html <> [] ->
    headers_of article_html = inr [header] ->
    Title header = inr t -> Place header = inr p ->
    Capacity header = inr c -> Code header = inr k ->
    Meeting_with header = inr m ->
    let record :=
      [ (lit "Title", t); (lit "Date", PyNone); (lit "Place", p);
        (lit "Capacity", c); (key_Code, k); (lit "Meeting with", m);
        (lit "page_number", PyInt (page_of article_url)) ] in
    (select_one header (lit "time") = inr None ->
     exists e,
       parse article_html article_url
       = ([Log WARNING (lit "Failed to retrieve date: {}") [AExc e]],
          Some [record]))
    /\ (forall node,
           select_one header (lit "time") = inr (Some node) ->
           get node (lit "datetime") = inr None ->
           parse article_html article_url = ([], Some [record])).
Proof.
  intros Node api article_html article_url header t p c k m Hne Hh
         Ht Hp Hc Hk Hm record.
  rewrite (parse_not_blank _ _ Hne), Hh, fst_records_of.
  cbn [flat_map map]. unfold record_warnings, record_fields.
  rewrite Ht, Hp, Hc, Hk, Hm. cbn [field_warning or_None app].
  split.
  - intros Hs. destruct (Date_without_element header Hs) as [e He].
    exists e. now rewrite He.
  - intros node Hs Hg. now rewrite (Date_without_attribute header node Hs Hg).
Qed.

Lemma date_missing_two_ways_witness :
  exists e,
    @parse _ Example.api (lit "<one meeting, no date>") Example.referer
    = ([Log WARNING (lit "Failed to retrieve date: {}") [AExc e]],
       Some [[ (lit "Title", PyString (lit "C"));
               (lit "Date", PyNone);
               (lit "Place", PyString (lit "Brussels"));
               (lit "Capacity", PyString (lit "Member"));
               (key_Code, PyString (lit "ENVI"));
               (lit "Meeting with", PyString (lit "ACME"));
               (lit "page_number", PyInt 0) ]]).
Proof.
  apply (date_missing_two_ways
           _ Example.api (lit "<one meeting, no date>") Example.referer
           (Example.meeting_without_date "C")
           (PyString (lit "C")) (PyString (lit "Brussels"))
           (PyString (lit "Member")) (PyString (lit "ENVI"))
           (PyString (lit "ACME")));
    try reflexivity.
  discriminate.
Defined.
